(** * plexos-coad: the run-length encoder and the document mapper

    Two developments over one error monad:

    - [CompressInterval] is a shallow embedding of
      [src/coad/compress_interval.pyx]; [CompressIntervalFacts] proves what
      the specification states about it.  Python integers are unbounded, so
      indices and values are [Z].  A row of [interval_data] is read at
      positions 0, 1 and 2 only; a row of [final_data] is the four-element
      list the function builds.  Values are only ever compared with [!=];
      they are integers here, as in the examples of the specification.  The
      function changes its argument in place,
      so it is given the content of the caller's list and yields, with its
      result, the content of that list afterwards.
    - [Mapper] models [load] and [save] of [plexos_database.py] from the
      specification, the module itself not being among the sources;
      [MapperFacts] proves the round trip.

    Exceptions are recorded by the name of their Python class. *)

From stdpp Require Import base list strings gmap sorting pretty.
From Stdlib Require Import ZArith Lia.

Local Open Scope Z_scope.

(** ** Python exceptions and the error monad *)

Record exn := Exn { exn_class : string; exn_msg : string }.

Definition IndexError (msg : string) : exn := Exn "IndexError" msg.

Inductive result (A : Type) : Type :=
| Ok (a : A)
| Raise (e : exn).
Arguments Ok {A} a.
Arguments Raise {A} e.

#[global] Instance result_ret : MRet result := fun _ a => Ok a.
#[global] Instance result_bind : MBind result := fun _ _ f m =>
  match m with
  | Ok a => f a
  | Raise e => Raise e
  end.

(** The class of the exception a call ended with, if it raised. *)
Definition raised_class {A} (m : result A) : option string :=
  match m with
  | Ok _ => None
  | Raise e => Some (exn_class e)
  end.

Module CompressInterval.

(** ** Data *)

(** A row of [interval_data]: [row[0]] is the category (key) id, [row[1]] the
    time (interval) index, [row[2]] the value. *)
Record row := Row { row0 : Z; row1 : Z; row2 : Z }.

(** A row of [final_data]: [[row[0], start, end, value]]. *)
Record run := Run { run0 : Z; run1 : Z; run2 : Z; run3 : Z }.

#[global] Instance row_eq_dec : EqDecision row.
Proof. solve_decision. Defined.
#[global] Instance run_eq_dec : EqDecision run.
Proof. solve_decision. Defined.

(** [r[2] = v] on one row of [final_data]. *)
Definition set_run2 (v : Z) (r : run) : run :=
  Run (run0 r) (run1 r) v (run3 r).

(** ** The list operations the function uses *)

(** [interval_data.pop(0)]: the removed element and the list that is left;
    on the empty list Python raises [IndexError]. *)
Definition pop0 {A} (l : list A) : result (A * list A) :=
  match l with
  | [] => Raise (IndexError "pop from empty list")
  | x :: rest => Ok (x, rest)
  end.

(** [final_data[-1][2] = v]: index [-1] is the last position; on the empty
    list Python raises [IndexError]. *)
Definition set_last_end (final_data : list run) (v : Z) : result (list run) :=
  match last final_data with
  | None => Raise (IndexError "list index out of range")
  | Some _ => Ok (alter (set_run2 v) (pred (length final_data)) final_data)
  end.

(** ** The scan *)

(** The local variables that live across iterations of the [for] loop. *)
Record scan_state := ScanState {
  final_data : list run;
  last_value : Z;
  last_intid : Z
}.

(** One iteration of the loop body. *)
Definition scan_step (st : scan_state) (r : row) : result scan_state :=
  if bool_decide (row2 r ≠ last_value st) then
    fd ← set_last_end (final_data st) (last_intid st);
    mret (ScanState (fd ++ [Run (row0 r) (row1 r) (row1 r) (row2 r)])
                    (row2 r) (row1 r))
  else
    mret (ScanState (final_data st) (last_value st) (row1 r)).

(** [for row in interval_data: ...] *)
Fixpoint scan (st : scan_state) (rows : list row) : result scan_state :=
  match rows with
  | [] => mret st
  | r :: rest => st' ← scan_step st r; scan st' rest
  end.

(** The state before the loop, from the popped first row. *)
Definition init_state (r : row) : scan_state :=
  ScanState [Run (row0 r) 1 (row1 r) (row2 r)] (row2 r) (row1 r).

(** The statements after [pop]: the loop over what is left of the list and
    the closing assignment. *)
Definition compress_rest (first : row) (rest : list row) : result (list run) :=
  st ← scan (init_state first) rest;
  set_last_end (final_data st) (last_intid st).

(** [compress_interval(interval_data)].  The argument is the caller's list
    object, which [pop] changes in place: the function is given the list's
    content and yields the returned value (or the exception) together with
    the content of the caller's list afterwards. *)
Definition compress_interval (interval_data : list row)
  : result (list run) * list row :=
  match pop0 interval_data with
  | Raise e => (Raise e, interval_data)
  | Ok (first, rest) => (compress_rest first rest, rest)
  end.

Definition returned (interval_data : list row) : result (list run) :=
  fst (compress_interval interval_data).

Definition list_after (interval_data : list row) : list row :=
  snd (compress_interval interval_data).

(** ** Blocks of equal value

    The vocabulary of the specification: a run is a maximal block of
    consecutive rows with equal value.  A block is never empty, so it is kept
    as its first row and the rows after it. *)

Definition chunk : Type := row * list row.

Definition chunk_rows (g : chunk) : list row := g.1 :: g.2.

Definition chunk_last (g : chunk) : row := default g.1 (last g.2).

(** The split of a list into its maximal blocks of equal [row[2]]. *)
Fixpoint chunks (l : list row) : list chunk :=
  match l with
  | [] => []
  | x :: rest =>
      match chunks rest with
      | [] => [(x, [])]
      | (y, g) :: gs =>
          if bool_decide (row2 x = row2 y)
          then (x, y :: g) :: gs
          else (x, []) :: (y, g) :: gs
      end
  end.

(** The run the specification describes for a block: category and value of
    the block, from the time index of its first row to that of its last. *)
Definition chunk_run (g : chunk) : run :=
  Run (row0 g.1) (row1 g.1) (row1 (chunk_last g)) (row2 g.1).

(** The encoding as the specification words it. *)
Definition maximal_runs (l : list row) : list run := chunk_run <$> chunks l.

(** The rows of [l] whose value differs from the value [prev] of the row just
    before them. *)
Fixpoint changes (prev : Z) (l : list row) : list row :=
  match l with
  | [] => []
  | r :: rest =>
      (if bool_decide (row2 r ≠ prev) then [r] else []) ++ changes (row2 r) rest
  end.

Definition value_changes (l : list row) : list row :=
  match l with
  | [] => []
  | x :: rest => changes (row2 x) rest
  end.

(** No two neighbouring rows have the same value. *)
Fixpoint no_repeats_from (prev : Z) (l : list row) : bool :=
  match l with
  | [] => true
  | r :: rest => bool_decide (row2 r ≠ prev) && no_repeats_from (row2 r) rest
  end.

Definition no_repeats (l : list row) : bool :=
  match l with
  | [] => true
  | x :: rest => no_repeats_from (row2 x) rest
  end.

(** Time indices increase along the rows of each category. *)
Fixpoint sorted_within_category (l : list row) : bool :=
  match l with
  | [] => true
  | x :: rest =>
      forallb (fun y => implb (bool_decide (row0 y = row0 x))
                              (bool_decide (row1 x < row1 y))) rest
      && sorted_within_category rest
  end.

(** Every row a run covers carries the run's category. *)
Definition single_category (r : run) (g : chunk) : Prop :=
  Forall (fun x => row0 x = run0 r) (chunk_rows g).

(** Neighbouring rows of different category have different values. *)
Fixpoint category_change_changes_value (l : list row) : bool :=
  match l with
  | [] => true
  | x :: rest =>
      match rest with
      | [] => true
      | y :: _ => implb (bool_decide (row0 x ≠ row0 y)) (bool_decide (row2 x ≠ row2 y))
      end && category_change_changes_value rest
  end.

(** [gs] splits into blocks that cannot be extended: inside a block every
    row has the value of the first, and the block that follows starts with a
    different value. *)
Definition constant_chunk (g : chunk) : Prop :=
  Forall (fun y => row2 y = row2 g.1) g.2.

Fixpoint neighbours_differ (gs : list chunk) : Prop :=
  match gs with
  | [] => True
  | g1 :: rest =>
      match rest with
      | [] => True
      | g2 :: _ => row2 g1.1 ≠ row2 g2.1
      end /\ neighbours_differ rest
  end.

(** [rs] with the start index of its first run replaced by [s]. *)
Definition with_first_start (s : Z) (rs : list run) : list run :=
  match rs with
  | [] => []
  | r :: rest => Run (run0 r) s (run2 r) (run3 r) :: rest
  end.

(** What identifies a run when it is opened, and the same of a row. *)
Definition run_opening (r : run) : Z * Z * Z := (run0 r, run1 r, run3 r).
Definition row_opening (x : row) : Z * Z * Z := (row0 x, row1 x, row2 x).

(** The inputs the statements below are evaluated at. *)
Definition spec_example : list row :=
  [Row 0 0 5; Row 0 1 5; Row 0 2 7; Row 0 3 7; Row 0 4 7].

Definition one_row_at_0 : list row := [Row 0 0 5].

Definition two_categories : list row := [Row 0 1 5; Row 1 1 5].

Definition three_distinct : list row := [Row 0 1 5; Row 0 2 6; Row 0 3 5].

(** The loop in closed form: the runs that the open run [(c, s, _, v)], last
    seen at time index [e], and the rows still to scan give rise to. *)
Fixpoint runs_from (c s e v : Z) (rows : list row) : list run :=
  match rows with
  | [] => [Run c s e v]
  | r :: rest =>
      if bool_decide (row2 r ≠ v)
      then Run c s e v :: runs_from (row0 r) (row1 r) (row1 r) (row2 r) rest
      else runs_from c s (row1 r) v rest
  end.

(** ** Vocabulary for further statements about the encoding *)

(** Time indices grow strictly along [l], from above [prev]. *)
Fixpoint increasing_from (prev : Z) (l : list row) : bool :=
  match l with
  | [] => true
  | r :: rest => bool_decide (prev < row1 r) && increasing_from (row1 r) rest
  end.

Definition increasing (l : list row) : bool :=
  match l with
  | [] => true
  | x :: rest => increasing_from (row1 x) rest
  end.

(** The time indices of [l] are [i], [i + 1], [i + 2], ... *)
Fixpoint consecutive_from (i : Z) (l : list row) : bool :=
  match l with
  | [] => true
  | r :: rest => bool_decide (row1 r = i) && consecutive_from (i + 1) rest
  end.

(** The samples a run stands for: one of its category and value at each time
    index from its start to its end. *)
Definition expand (r : run) : list row :=
  (fun i => Row (run0 r) i (run3 r)) <$> seqZ (run1 r) (run2 r - run1 r + 1).

Definition decode (rs : list run) : list row := concat (expand <$> rs).

(** [vs] with each stretch of equal neighbours reduced to one value. *)
Fixpoint collapse_from (prev : Z) (vs : list Z) : list Z :=
  match vs with
  | [] => []
  | v :: rest =>
      (if bool_decide (v ≠ prev) then [v] else []) ++ collapse_from v rest
  end.

Definition collapse (vs : list Z) : list Z :=
  match vs with
  | [] => []
  | v :: rest => v :: collapse_from v rest
  end.

(** No two neighbours of [vs] are equal. *)
Fixpoint neighbours_distinct (vs : list Z) : Prop :=
  match vs with
  | [] => True
  | v1 :: rest =>
      match rest with
      | [] => True
      | v2 :: _ => v1 ≠ v2
      end /\ neighbours_distinct rest
  end.

(** Each run ends before the next one starts. *)
Fixpoint ordered_runs (rs : list run) : Prop :=
  match rs with
  | [] => True
  | r1 :: rest =>
      match rest with
      | [] => True
      | r2 :: _ => run2 r1 < run1 r2
      end /\ ordered_runs rest
  end.

(** An input whose time indices are 1, 2, 3, ... *)
Definition from_index_1 : list row :=
  [Row 0 1 5; Row 0 2 5; Row 0 3 7; Row 0 4 7; Row 0 5 7].

End CompressInterval.

(** * The document mapper: [load] and [save]

    [plexos_database.py], which holds [load] and [save], is not among the
    sources (only its description in the README is); what follows is written
    from the specification, sections 3, 4.2, 4.3 and 6. *)

Module Mapper.

(** ** Rows

    Modelled from the spec: the rows of the tables that [load] fills, in
    place of the database schema of [plexos_database.py].  Section 3 gives
    their attributes: a Class has "id, name, optional class-group id"; an
    Object "id, class_id, name, optional GUID/description"; an AttributeDef
    is a named property "valid for a given Class, including default value
    and enumeration metadata"; an AttributeValue is "the value of one
    AttributeDef on one Object"; a Category is a label "within its Class"; a
    Membership is "a directed parent→child relation between two Objects,
    carrying a Collection id".  Identifiers are integers; values are text. *)

Record Class := MkClass {
  class_id : Z;
  class_name : string;
  class_group_id : option Z
}.

Record AttributeDef := MkAttributeDef {
  attribute_id : Z;
  attribute_class_id : Z;
  attribute_name : string;
  default_value : string;
  enum_id : option Z
}.

Record Object := MkObject {
  object_id : Z;
  object_class_id : Z;
  object_name : string;
  guid : option string;
  description : option string
}.

Record AttributeValue := MkAttributeValue {
  value_object_id : Z;
  value_attribute_id : Z;
  value : string
}.

Record Category := MkCategory {
  category_id : Z;
  category_class_id : Z;
  category_name : string
}.

Record Membership := MkMembership {
  membership_id : Z;
  parent_object_id : Z;
  child_object_id : Z;
  collection_id : Z
}.

#[global] Instance Class_eq_dec : EqDecision Class.
Proof. solve_decision. Defined.
#[global] Instance AttributeDef_eq_dec : EqDecision AttributeDef.
Proof. solve_decision. Defined.
#[global] Instance Object_eq_dec : EqDecision Object.
Proof. solve_decision. Defined.
#[global] Instance AttributeValue_eq_dec : EqDecision AttributeValue.
Proof. solve_decision. Defined.
#[global] Instance Category_eq_dec : EqDecision Category.
Proof. solve_decision. Defined.
#[global] Instance Membership_eq_dec : EqDecision Membership.
Proof. solve_decision. Defined.

(** Modelled from the spec: the Store of section 3, "the aggregate owner of
    all rows", in place of the database that [load] of [plexos_database.py]
    returns: one table per entity, each in insertion order. *)
Record Store := MkStore {
  classes : list Class;
  attribute_defs : list AttributeDef;
  objects : list Object;
  attribute_values : list AttributeValue;
  categories : list Category;
  memberships : list Membership
}.

(** Modelled from the spec: the tree document of section 6, in place of the
    XML file that [plexos_database.py] reads and writes: "ordered sections
    for Class, AttributeDef (per Class), Object, AttributeValue (per Object +
    AttributeDef), Category, Membership (parent id, child id, collection
    id)".  A node holds what its row holds, with the identifiers the document
    uses. *)
Record Document := MkDocument {
  class_section : list Class;
  attribute_def_section : list AttributeDef;
  object_section : list Object;
  attribute_value_section : list AttributeValue;
  category_section : list Category;
  membership_section : list Membership
}.

(** The errors of section 7 that [load] can end with; the message names the
    section and the identifier of the offending node. *)
Definition LoadError (section : string) (node : Z) : exn :=
  Exn "LoadError" (section +:+ " " +:+ pretty node).

Definition IntegrityError (section : string) (node : Z) : exn :=
  Exn "IntegrityError" (section +:+ " " +:+ pretty node).

(** ** Setting identifiers *)

Definition set_class_id (i : Z) (c : Class) : Class :=
  MkClass i (class_name c) (class_group_id c).

Definition set_attribute_id (i : Z) (a : AttributeDef) : AttributeDef :=
  MkAttributeDef i (attribute_class_id a) (attribute_name a)
                 (default_value a) (enum_id a).

Definition set_object_id (i : Z) (o : Object) : Object :=
  MkObject i (object_class_id o) (object_name o) (guid o) (description o).

Definition set_category_id (i : Z) (c : Category) : Category :=
  MkCategory i (category_class_id c) (category_name c).

Definition set_membership_id (i : Z) (m : Membership) : Membership :=
  MkMembership i (parent_object_id m) (child_object_id m) (collection_id m).

(** ** Resolving references

    Modelled from the spec: how [load] turns the references of a node into
    references between rows.  A reference of a node is a document
    identifier; [ids] gives the store identifier of the row loaded from the
    node it names.  [None]: the reference names no node. *)

Definition resolve_class (c : Class) : option Class := Some c.

Definition resolve_attribute_def (class_ids : gmap Z Z) (a : AttributeDef)
  : option AttributeDef :=
  c ← class_ids !! attribute_class_id a;
  Some (MkAttributeDef (attribute_id a) c (attribute_name a)
                       (default_value a) (enum_id a)).

Definition resolve_object (class_ids : gmap Z Z) (o : Object) : option Object :=
  c ← class_ids !! object_class_id o;
  Some (MkObject (object_id o) c (object_name o) (guid o) (description o)).

Definition resolve_attribute_value (object_ids attribute_ids : gmap Z Z)
    (v : AttributeValue) : option AttributeValue :=
  o ← object_ids !! value_object_id v;
  a ← attribute_ids !! value_attribute_id v;
  Some (MkAttributeValue o a (value v)).

Definition resolve_category (class_ids : gmap Z Z) (c : Category)
  : option Category :=
  k ← class_ids !! category_class_id c;
  Some (MkCategory (category_id c) k (category_name c)).

Definition resolve_membership (object_ids : gmap Z Z) (m : Membership)
  : option Membership :=
  p ← object_ids !! parent_object_id m;
  c ← object_ids !! child_object_id m;
  Some (MkMembership (membership_id m) p c (collection_id m)).

(** ** The invariants that an insertion checks

    Modelled from the spec: section 4.3, "Every mutating call enforces the
    invariants in §3", which are: (class_id, name) unique among
    Objects; (class_id, attribute_name) unique among AttributeDefs; an
    AttributeValue "references an AttributeDef whose class matches the
    Object's class", "at most one value row per (object_id,
    attribute_def_id)"; "no self-membership; multiple memberships between
    the same pair are allowed only under different Collection ids". *)

(** A row is admitted when it passes its own check and no row of the table
    has its key. *)
Definition keyed {N K} `{EqDecision K} (own : N -> bool) (key : N -> K)
    (rows : list N) (r : N) : bool :=
  own r && bool_decide (key r ∉ key <$> rows).

Definition unconstrained {N} (rows : list N) (r : N) : bool := true.

Definition attribute_def_key (a : AttributeDef) : Z * string :=
  (attribute_class_id a, attribute_name a).

Definition object_key (o : Object) : Z * string :=
  (object_class_id o, object_name o).

Definition attribute_value_key (v : AttributeValue) : Z * Z :=
  (value_object_id v, value_attribute_id v).

Definition membership_key (m : Membership) : Z * Z * Z :=
  (parent_object_id m, child_object_id m, collection_id m).

(** "references an AttributeDef whose class matches the Object's class" *)
Definition class_matches (os : list Object) (ads : list AttributeDef)
    (v : AttributeValue) : bool :=
  existsb (fun o =>
    existsb (fun a =>
      bool_decide (object_id o = value_object_id v)
      && bool_decide (attribute_id a = value_attribute_id v)
      && bool_decide (object_class_id o = attribute_class_id a)) ads) os.

(** "no self-membership" *)
Definition not_self (m : Membership) : bool :=
  bool_decide (parent_object_id m ≠ child_object_id m).

(** ** Renumbering *)

(** A renumbering: what becomes of the identifiers of each table. *)
Record renumbering := MkRenumbering {
  on_class : Z -> Z;
  on_attribute : Z -> Z;
  on_object : Z -> Z;
  on_category : Z -> Z;
  on_membership : Z -> Z
}.

Definition renumber_class (f : renumbering) (c : Class) : Class :=
  MkClass (on_class f (class_id c)) (class_name c) (class_group_id c).

Definition renumber_attribute_def (f : renumbering) (a : AttributeDef)
  : AttributeDef :=
  MkAttributeDef (on_attribute f (attribute_id a))
                 (on_class f (attribute_class_id a))
                 (attribute_name a) (default_value a) (enum_id a).

Definition renumber_object (f : renumbering) (o : Object) : Object :=
  MkObject (on_object f (object_id o)) (on_class f (object_class_id o))
           (object_name o) (guid o) (description o).

Definition renumber_attribute_value (f : renumbering) (v : AttributeValue)
  : AttributeValue :=
  MkAttributeValue (on_object f (value_object_id v))
                   (on_attribute f (value_attribute_id v)) (value v).

Definition renumber_category (f : renumbering) (k : Category) : Category :=
  MkCategory (on_category f (category_id k)) (on_class f (category_class_id k))
             (category_name k).

Definition renumber_membership (f : renumbering) (m : Membership) : Membership :=
  MkMembership (on_membership f (membership_id m))
               (on_object f (parent_object_id m))
               (on_object f (child_object_id m)) (collection_id m).

(** ** Loading *)

Section store_ids.

(** Identifiers are "store-assigned integers": the row inserted into a table
    that holds [k] rows gets the identifier [next_id k], and no two rows of a
    table get the same one (the hypothesis the theorems make). *)
Variable next_id : nat -> Z.

(** The store identifier of each document identifier of a section. *)
Definition id_map {N} (ident : N -> Z) (nodes : list N) : gmap Z Z :=
  list_to_map (imap (fun k n => (ident n, next_id k)) nodes).

Section insert.
Context {N : Type}.
Variable section_name : string.
Variable ident : N -> Z.
Variable set_ident : Z -> N -> N.
Variable resolve : N -> option N.
Variable admissible : list N -> N -> bool.

(** Modelled from the spec: the walk of one section by [load] of
    [plexos_database.py] (section 4.2: "walks Object, AttributeValue,
    Category, and Membership sections, inserting rows"; section 4.3: the
    store "performs the integrity check before any row mutation takes
    effect").  Each node in turn has its references resolved, is given its
    identifier and is inserted if the table admits it; the first node that
    fails ends the load. *)
Fixpoint insert_all (rows : list N) (nodes : list N) : result (list N) :=
  match nodes with
  | [] => Ok rows
  | n :: rest =>
      match resolve n with
      | None => Raise (LoadError section_name (ident n))
      | Some r =>
          let r' := set_ident (next_id (length rows)) r in
          if admissible rows r'
          then insert_all (rows ++ [r']) rest
          else Raise (IntegrityError section_name (ident n))
      end
  end.

(** The rows that [rs], already resolved, become when they are inserted in
    turn into a table that holds [k] rows. *)
Definition numbered (k : nat) (rs : list N) : list N :=
  imap (fun i r => set_ident (next_id (k + i)) r) rs.

(** Each row of [new] is admitted by the table as it is when the row is
    inserted: [rows] and the rows of [new] before it. *)
Fixpoint admitted (rows new : list N) : Prop :=
  match new with
  | [] => True
  | r :: rest => admissible rows r = true /\ admitted (rows ++ [r]) rest
  end.

End insert.

(** The store identifier [ids] gives for [d]; [d] itself if it gives none. *)
Definition look (ids : gmap Z Z) (d : Z) : Z := default d (ids !! d).

(** What loading [doc] does to the identifiers its nodes carry. *)
Definition renumbering_of (doc : Document) : renumbering :=
  MkRenumbering
    (look (id_map class_id (class_section doc)))
    (look (id_map attribute_id (attribute_def_section doc)))
    (look (id_map object_id (object_section doc)))
    (look (id_map category_id (category_section doc)))
    (look (id_map membership_id (membership_section doc))).

(** Modelled from the spec: [load] of [plexos_database.py], after section
    4.2.  The schema sections (Class, AttributeDef) come first, then the
    Object, AttributeValue, Category and Membership sections; "a reference to
    a non-existent Class/Object/AttributeDef fails with a LoadError", a row
    that breaks an invariant of section 3 with an [IntegrityError]. *)
Definition load (doc : Document) : result Store :=
  cs ← insert_all "Class" class_id set_class_id resolve_class unconstrained
        [] (class_section doc);
  let class_ids := id_map class_id (class_section doc) in
  ads ← insert_all "AttributeDef" attribute_id set_attribute_id
         (resolve_attribute_def class_ids)
         (keyed (fun _ => true) attribute_def_key)
         [] (attribute_def_section doc);
  let attribute_ids := id_map attribute_id (attribute_def_section doc) in
  os ← insert_all "Object" object_id set_object_id
        (resolve_object class_ids) (keyed (fun _ => true) object_key)
        [] (object_section doc);
  let object_ids := id_map object_id (object_section doc) in
  vs ← insert_all "AttributeValue" value_object_id (fun _ v => v)
        (resolve_attribute_value object_ids attribute_ids)
        (keyed (class_matches os ads) attribute_value_key)
        [] (attribute_value_section doc);
  ks ← insert_all "Category" category_id set_category_id
        (resolve_category class_ids) unconstrained
        [] (category_section doc);
  ms ← insert_all "Membership" membership_id set_membership_id
        (resolve_membership object_ids) (keyed not_self membership_key)
        [] (membership_section doc);
  mret (MkStore cs ads os vs ks ms).

End store_ids.

(** ** Saving *)

(** Lexicographic order on sort keys. *)
Fixpoint lex_le (a b : list Z) : bool :=
  match a, b with
  | [], _ => true
  | _ :: _, [] => false
  | x :: a', y :: b' =>
      bool_decide (x < y) || (bool_decide (x = y) && lex_le a' b')
  end.

Definition sort_on {A} (key : A -> list Z) (l : list A) : list A :=
  merge_sort (fun x y => lex_le (key x) (key y)) l.

Definition ids_of {A} (ident : A -> Z) (l : list A) : list Z := ident <$> l.

(** The class of the object with identifier [i]. *)
Definition class_of (os : list Object) (i : Z) : Z :=
  default 0 (object_class_id <$>
             head (filter (fun o => object_id o = i) os)).

(** Modelled from the spec: [save] of [plexos_database.py], after sections
    3 and 4.2.  Rows that have no place in the tree (their class, object or
    attribute definition is not there) are not persisted ("save never
    persisting orphaned/invalid rows it cannot map back to a valid tree
    position"); the others are emitted "in a stable order (by Class, then
    Object id, then Attribute/Membership id)". *)
Definition save (s : Store) : Document :=
  let cs := classes s in
  let ads := filter (fun a => attribute_class_id a ∈ ids_of class_id cs)
                    (attribute_defs s) in
  let os := filter (fun o => object_class_id o ∈ ids_of class_id cs)
                   (objects s) in
  let vs := filter (fun v => value_object_id v ∈ ids_of object_id os
                             /\ value_attribute_id v ∈ ids_of attribute_id ads)
                   (attribute_values s) in
  let ks := filter (fun k => category_class_id k ∈ ids_of class_id cs)
                   (categories s) in
  let ms := filter (fun m => parent_object_id m ∈ ids_of object_id os
                             /\ child_object_id m ∈ ids_of object_id os)
                   (memberships s) in
  MkDocument
    (sort_on (fun c => [class_id c]) cs)
    (sort_on (fun a => [attribute_class_id a; attribute_id a]) ads)
    (sort_on (fun o => [object_class_id o; object_id o]) os)
    (sort_on (fun v => [class_of os (value_object_id v); value_object_id v;
                        value_attribute_id v]) vs)
    (sort_on (fun k => [category_class_id k; category_id k]) ks)
    (sort_on (fun m => [class_of os (parent_object_id m); parent_object_id m;
                        membership_id m]) ms).

(** ** Equality of stores up to the numbering of rows, continued *)

(** [f] sends different identifiers of [ids] to different identifiers. *)
Definition injective_on (f : Z -> Z) (ids : list Z) : Prop :=
  forall i j, i ∈ ids -> j ∈ ids -> f i = f j -> i = j.

(** [f] confuses no two rows of a table of [s]. *)
Definition renumbers (f : renumbering) (s : Store) : Prop :=
  injective_on (on_class f) (ids_of class_id (classes s))
  /\ injective_on (on_attribute f) (ids_of attribute_id (attribute_defs s))
  /\ injective_on (on_object f) (ids_of object_id (objects s))
  /\ injective_on (on_category f) (ids_of category_id (categories s))
  /\ injective_on (on_membership f) (ids_of membership_id (memberships s)).

(** The tables of [s2] hold the rows of [s1], renumbered by [f], each as
    often, in some order. *)
Definition renumbered (f : renumbering) (s1 s2 : Store) : Prop :=
  classes s2 ≡ₚ renumber_class f <$> classes s1
  /\ attribute_defs s2 ≡ₚ renumber_attribute_def f <$> attribute_defs s1
  /\ objects s2 ≡ₚ renumber_object f <$> objects s1
  /\ attribute_values s2 ≡ₚ renumber_attribute_value f <$> attribute_values s1
  /\ categories s2 ≡ₚ renumber_category f <$> categories s1
  /\ memberships s2 ≡ₚ renumber_membership f <$> memberships s1.

Definition same_rows (s1 s2 : Store) : Prop :=
  exists f : renumbering, renumbers f s1 /\ renumbered f s1 s2.

(** ** The invariants of a store (section 3) *)

Record well_formed (s : Store) : Prop := MkWellFormed {
  wf_class_ids : NoDup (ids_of class_id (classes s));
  wf_attribute_ids : NoDup (ids_of attribute_id (attribute_defs s));
  wf_object_ids : NoDup (ids_of object_id (objects s));
  wf_category_ids : NoDup (ids_of category_id (categories s));
  wf_membership_ids : NoDup (ids_of membership_id (memberships s));
  wf_attribute_class :
    Forall (fun a => attribute_class_id a ∈ ids_of class_id (classes s))
           (attribute_defs s);
  wf_object_class :
    Forall (fun o => object_class_id o ∈ ids_of class_id (classes s))
           (objects s);
  wf_value_refs :
    Forall (fun v => value_object_id v ∈ ids_of object_id (objects s)
                     /\ value_attribute_id v
                        ∈ ids_of attribute_id (attribute_defs s))
           (attribute_values s);
  wf_category_class :
    Forall (fun k => category_class_id k ∈ ids_of class_id (classes s))
           (categories s);
  wf_membership_refs :
    Forall (fun m => parent_object_id m ∈ ids_of object_id (objects s)
                     /\ child_object_id m ∈ ids_of object_id (objects s))
           (memberships s);
  wf_attribute_key : NoDup (attribute_def_key <$> attribute_defs s);
  wf_object_key : NoDup (object_key <$> objects s);
  wf_value_key : NoDup (attribute_value_key <$> attribute_values s);
  wf_membership_key : NoDup (membership_key <$> memberships s);
  wf_value_class :
    Forall (fun v => class_matches (objects s) (attribute_defs s) v = true)
           (attribute_values s);
  wf_not_self : Forall (fun m => not_self m = true) (memberships s)
}.

(** ** An instance *)

(** Identifiers 1, 2, 3, ... in insertion order. *)
Definition count_from_1 (k : nat) : Z := Z.of_nat k + 1.

(** The document of the end-to-end example of section 8 (class "Model",
    object "Base", attribute "Enabled" set to -1), with a second class, an
    object of it and a membership.  The identifiers of the document are
    arbitrary. *)
Definition example_document : Document :=
  MkDocument
    [MkClass 20 "Model" None; MkClass 10 "Horizon" (Some 1)]
    [MkAttributeDef 7 20 "Enabled" "0" None]
    [MkObject 3 10 "Year" None (Some "a year"); MkObject 5 20 "Base" None None]
    [MkAttributeValue 5 7 "-1"]
    [MkCategory 1 20 "-"]
    [MkMembership 9 5 3 77].

(** The store it loads into, *)
Definition example_store : Store :=
  MkStore
    [MkClass 1 "Model" None; MkClass 2 "Horizon" (Some 1)]
    [MkAttributeDef 1 1 "Enabled" "0" None]
    [MkObject 1 2 "Year" None (Some "a year"); MkObject 2 1 "Base" None None]
    [MkAttributeValue 2 1 "-1"]
    [MkCategory 1 1 "-"]
    [MkMembership 1 2 1 77].

(** and the store that its saved form loads into: the objects are saved by
    class, so "Base" is now the first object and "Year" the second. *)
Definition example_store_again : Store :=
  MkStore
    [MkClass 1 "Model" None; MkClass 2 "Horizon" (Some 1)]
    [MkAttributeDef 1 1 "Enabled" "0" None]
    [MkObject 1 1 "Base" None None; MkObject 2 2 "Year" None (Some "a year")]
    [MkAttributeValue 1 1 "-1"]
    [MkCategory 1 1 "-"]
    [MkMembership 1 1 2 77].

(** A document whose only object names a class that is not there. *)
Definition dangling_document : Document :=
  MkDocument [] [] [MkObject 5 20 "Base" None None] [] [] [].

End Mapper.

(** * The error monad *)

Lemma bind_Ok {A B} (a : A) (f : A -> result B) : Ok a ≫= f = f a.
Proof. reflexivity. Qed.

Lemma bind_Raise {A B} (e : exn) (f : A -> result B) : Raise e ≫= f = Raise e.
Proof. reflexivity. Qed.

Lemma ret_Ok {A} (a : A) : mret a = Ok a.
Proof. reflexivity. Qed.

(** * Properties of [compress_interval] *)

Module CompressIntervalFacts.
Import CompressInterval.

(** ** The list operations *)

Lemma set_last_end_snoc (fd : list run) (r : run) (v : Z) :
  set_last_end (fd ++ [r]) v = Ok (fd ++ [set_run2 v r]).
Proof.
  unfold set_last_end. rewrite last_snoc, length_app. simpl.
  replace (pred (length fd + 1)) with (length fd + 0)%nat by lia.
  now rewrite alter_app_r.
Qed.

Lemma set_last_end_nil (v : Z) :
  set_last_end [] v = Raise (IndexError "list index out of range").
Proof. reflexivity. Qed.

(** ** The loop against its closed form *)

Lemma scan_step_change (st : scan_state) (fd : list run) (cur : run) (r : row) :
  final_data st = fd ++ [cur] ->
  row2 r ≠ last_value st ->
  scan_step st r
  = Ok (ScanState (fd ++ [set_run2 (last_intid st) cur]
                      ++ [Run (row0 r) (row1 r) (row1 r) (row2 r)])
                  (row2 r) (row1 r)).
Proof.
  intros Hfd Hv. unfold scan_step. rewrite bool_decide_eq_true_2 by done.
  rewrite Hfd, set_last_end_snoc, bind_Ok, ret_Ok.
  now rewrite <- app_assoc.
Qed.

Lemma scan_step_same (st : scan_state) (r : row) :
  row2 r = last_value st ->
  scan_step st r = Ok (ScanState (final_data st) (last_value st) (row1 r)).
Proof.
  intros Hv. unfold scan_step. rewrite bool_decide_eq_false_2; [done|].
  intros H. now apply H.
Qed.

Lemma scan_runs_from (rows : list row) :
  forall (fd : list run) (c s e0 v e : Z),
    scan (ScanState (fd ++ [Run c s e0 v]) v e) rows
      ≫= (fun st => set_last_end (final_data st) (last_intid st))
    = Ok (fd ++ runs_from c s e v rows).
Proof.
  induction rows as [|r rest IH]; intros fd c s e0 v e.
  - cbn [scan runs_from]. rewrite ret_Ok, bind_Ok.
    cbn [final_data last_intid]. now rewrite set_last_end_snoc.
  - cbn [scan runs_from]. destruct (decide (row2 r = v)) as [Hv|Hv].
    + rewrite scan_step_same by done. rewrite bind_Ok.
      cbn [final_data last_value].
      rewrite bool_decide_eq_false_2 by (intros H; now apply H).
      apply IH.
    + rewrite (scan_step_change _ fd (Run c s e0 v)) by done.
      rewrite bind_Ok. rewrite bool_decide_eq_true_2 by done.
      cbn [last_intid]. rewrite app_assoc, IH. unfold set_run2.
      cbn [run0 run1 run3]. now rewrite <- app_assoc.
Qed.

Lemma compress_rest_runs_from (x : row) (rest : list row) :
  compress_rest x rest = Ok (runs_from (row0 x) 1 (row1 x) (row2 x) rest).
Proof.
  unfold compress_rest, init_state.
  apply (scan_runs_from rest [] (row0 x) 1 (row1 x) (row2 x) (row1 x)).
Qed.

(** ** Blocks *)

Lemma chunks_cons_head (x : row) (rest : list row) :
  exists g gs, chunks (x :: rest) = (x, g) :: gs.
Proof.
  cbn [chunks]. destruct (chunks rest) as [|[y g] gs]; [by eauto|].
  case_bool_decide; eauto.
Qed.

Lemma chunk_last_cons (x y : row) (g : list row) :
  chunk_last (x, y :: g) = chunk_last (y, g).
Proof.
  unfold chunk_last. cbn [fst snd]. rewrite last_cons.
  now destruct (last g).
Qed.

Lemma chunks_concat (l : list row) : concat (chunk_rows <$> chunks l) = l.
Proof.
  induction l as [|x rest IH]; [done|].
  cbn [chunks]. destruct (chunks rest) as [|[y g] gs].
  - simpl in *. now subst.
  - case_bool_decide; rewrite <- IH; reflexivity.
Qed.

Lemma chunks_constant (l : list row) : Forall constant_chunk (chunks l).
Proof.
  induction l as [|x rest IH]; [constructor|].
  destruct (chunks_cons_head x rest) as (g0 & gs0 & _).
  cbn [chunks]. destruct (chunks rest) as [|[y g] gs].
  - repeat constructor.
  - inversion IH as [|? ? Hy Hgs]; subst. case_bool_decide as Hxy.
    + constructor; [|done]. unfold constant_chunk in *. cbn [fst snd] in *.
      constructor; [done|].
      eapply Forall_impl; [exact Hy|]. intros z Hz. cbn beta in Hz. congruence.
    + constructor; [constructor|done].
Qed.

Lemma chunks_neighbours_differ (l : list row) : neighbours_differ (chunks l).
Proof.
  induction l as [|x rest IH]; [done|].
  cbn [chunks]. destruct (chunks rest) as [|[y g] gs] eqn:E.
  - done.
  - case_bool_decide as Hxy.
    + cbn [neighbours_differ fst] in *. destruct gs; [done|].
      destruct IH as [Hd IH]. split; [|done]. congruence.
    + cbn [neighbours_differ fst] in *. done.
Qed.

(** ** The closed form against the blocks *)

Lemma runs_from_chunks (rest : list row) :
  forall (x : row) (c s : Z),
    runs_from c s (row1 x) (row2 x) rest
    = match chunks (x :: rest) with
      | [] => []
      | g :: gs => Run c s (row1 (chunk_last g)) (row2 x) :: (chunk_run <$> gs)
      end.
Proof.
  induction rest as [|y ys IH]; intros x c s; [done|].
  cbn [runs_from]. specialize (IH y).
  change (chunks (x :: y :: ys)) with
    (match chunks (y :: ys) with
     | [] => [(x, [])]
     | (y', g) :: gs =>
         if bool_decide (row2 x = row2 y')
         then (x, y' :: g) :: gs else (x, []) :: (y', g) :: gs
     end).
  destruct (chunks_cons_head y ys) as (g & gs & E). rewrite E in *.
  destruct (decide (row2 y = row2 x)) as [Hv|Hv].
  - rewrite bool_decide_eq_false_2 by (intros H; now apply H).
    rewrite bool_decide_eq_true_2 by done.
    rewrite <- Hv, IH. now rewrite chunk_last_cons.
  - rewrite bool_decide_eq_true_2 by done.
    rewrite bool_decide_eq_false_2 by (intros H; now apply Hv).
    rewrite IH. reflexivity.
Qed.

Lemma returned_cons (x : row) (rest : list row) :
  returned (x :: rest) = Ok (runs_from (row0 x) 1 (row1 x) (row2 x) rest).
Proof.
  unfold returned, compress_interval. cbn [pop0 fst].
  apply compress_rest_runs_from.
Qed.

(** On a non-empty list the call returns the runs of the maximal blocks of
    equal value, except that the first run starts at the constant 1. *)
Lemma returned_maximal_runs (x : row) (rest : list row) :
  returned (x :: rest) = Ok (with_first_start 1 (maximal_runs (x :: rest))).
Proof.
  rewrite returned_cons, runs_from_chunks. unfold maximal_runs.
  destruct (chunks_cons_head x rest) as (g & gs & E). rewrite E.
  reflexivity.
Qed.

Lemma returned_first_index_1 (x : row) (rest : list row) :
  row1 x = 1 ->
  returned (x :: rest) = Ok (maximal_runs (x :: rest)).
Proof.
  intros H1. rewrite returned_maximal_runs. unfold maximal_runs.
  destruct (chunks_cons_head x rest) as (g & gs & E). rewrite E.
  cbn. unfold chunk_run. cbn. now rewrite H1.
Qed.

Lemma returned_maximal_iff (x : row) (rest : list row) :
  returned (x :: rest) = Ok (maximal_runs (x :: rest)) <-> row1 x = 1.
Proof.
  split; [|apply returned_first_index_1].
  rewrite returned_maximal_runs. unfold maximal_runs.
  destruct (chunks_cons_head x rest) as (g & gs & E). rewrite E.
  cbn. unfold chunk_run. cbn. intros H. now inversion H.
Qed.

(** ** What the closed form opens and closes *)

Lemma runs_from_opening (rest : list row) :
  forall c s e v : Z,
    exists e' tl,
      runs_from c s e v rest = Run c s e' v :: tl
      /\ run_opening <$> tl = row_opening <$> changes v rest.
Proof.
  induction rest as [|r rest IH]; intros c s e v; cbn [runs_from changes].
  - by exists e, [].
  - destruct (decide (row2 r = v)) as [Hv|Hv].
    + rewrite !bool_decide_eq_false_2 by (intros H; now apply H).
      rewrite Hv. apply IH.
    + rewrite !bool_decide_eq_true_2 by done.
      destruct (IH (row0 r) (row1 r) (row1 r) (row2 r)) as (e' & tl & -> & Htl).
      exists e, (Run (row0 r) (row1 r) e' (row2 r) :: tl). split; [done|].
      cbn. now rewrite Htl.
Qed.

Lemma runs_from_last (rest : list row) :
  forall c s e v : Z,
    run2 <$> last (runs_from c s e v rest)
    = Some (default e (row1 <$> last rest)).
Proof.
  induction rest as [|r rest IH]; intros c s e v; cbn [runs_from]; [done|].
  assert (Hd : default e (row1 <$> last (r :: rest))
               = default (row1 r) (row1 <$> last rest)).
  { rewrite last_cons. now destruct (last rest). }
  rewrite Hd. case_bool_decide.
  - destruct (runs_from_opening rest (row0 r) (row1 r) (row1 r) (row2 r))
      as (e' & tl & E & _).
    rewrite last_cons, <- (IH (row0 r) (row1 r) (row1 r) (row2 r)), E.
    now destruct (last (Run (row0 r) (row1 r) e' (row2 r) :: tl)) eqn:El;
      [|rewrite last_cons in El; destruct (last tl)].
  - apply IH.
Qed.

Lemma runs_from_length_no_repeats (rest : list row) :
  forall c s e v : Z,
    no_repeats_from v rest = true ->
    length (runs_from c s e v rest) = S (length rest).
Proof.
  induction rest as [|r rest IH]; intros c s e v H; cbn [runs_from]; [done|].
  cbn [no_repeats_from] in H. apply andb_true_iff in H as [Hv H].
  rewrite Hv. cbn [length]. now rewrite IH.
Qed.

Lemma scan_ok (rows : list row) :
  forall (st : scan_state) (fd : list run) (cur : run),
    final_data st = fd ++ [cur] ->
    exists st',
      scan st rows = Ok st'
      /\ last_intid st' = default (last_intid st) (row1 <$> last rows).
Proof.
  induction rows as [|r rest IH]; intros st fd cur Hfd; cbn [scan].
  - by exists st.
  - assert (Hd : default (last_intid st) (row1 <$> last (r :: rest))
                 = default (row1 r) (row1 <$> last rest)).
    { rewrite last_cons. now destruct (last rest). }
    rewrite Hd. destruct (decide (row2 r = last_value st)) as [Hv|Hv].
    + rewrite scan_step_same, bind_Ok by done.
      apply (IH (ScanState (final_data st) (last_value st) (row1 r)) fd cur).
      exact Hfd.
    + rewrite (scan_step_change st fd cur), bind_Ok by done.
      apply (IH (ScanState _ (row2 r) (row1 r))
                (fd ++ [set_run2 (last_intid st) cur])
                (Run (row0 r) (row1 r) (row1 r) (row2 r))).
      cbn [final_data]. now rewrite app_assoc.
Qed.

Lemma fmap_with_first_start {B} (f : run -> B) (s : Z) (rs : list run) :
  (forall r, f (Run (run0 r) s (run2 r) (run3 r)) = f r) ->
  f <$> with_first_start s rs = f <$> rs.
Proof. intros Hf. destruct rs as [|r rs]; [done|]. cbn. now rewrite Hf. Qed.

(** ** Categories *)

Lemma chunks_single_category (l : list row) :
  category_change_changes_value l = true ->
  Forall (fun g => Forall (fun y => row0 y = row0 g.1) g.2) (chunks l).
Proof.
  induction l as [|x rest IH]; intros H; [constructor|].
  cbn [chunks]. destruct rest as [|y ys].
  - repeat constructor.
  - change (implb (bool_decide (row0 x ≠ row0 y)) (bool_decide (row2 x ≠ row2 y))
            && category_change_changes_value (y :: ys) = true) in H.
    apply andb_true_iff in H as [Hx H]. specialize (IH H).
    destruct (chunks_cons_head y ys) as (g & gs & E). rewrite E in *.
    inversion IH as [|? ? Hy Hgs]; subst. cbn [fst snd] in Hy.
    destruct (bool_decide (row2 x = row2 y)) eqn:Hb.
    + apply bool_decide_eq_true_1 in Hb.
      assert (Hc : row0 x = row0 y).
      { destruct (bool_decide (row0 x ≠ row0 y)) eqn:Hn.
        - cbn [implb] in Hx. apply bool_decide_eq_true_1 in Hx.
          exfalso. exact (Hx Hb).
        - apply bool_decide_eq_false_1 in Hn.
          destruct (decide (row0 x = row0 y)) as [|Hne]; [done|].
          exfalso. exact (Hn Hne). }
      constructor; [|done]. cbn [fst snd]. constructor; [done|].
      eapply Forall_impl; [exact Hy|]. intros z Hz. cbn beta in Hz. congruence.
    + constructor; [constructor|]. constructor; done.
Qed.

Lemma Forall2_with_first_start (P : run -> chunk -> Prop) (s : Z)
    (gs : list chunk) :
  Forall (fun g => P (chunk_run g) g
                   /\ P (Run (row0 g.1) s (row1 (chunk_last g)) (row2 g.1)) g) gs ->
  Forall2 P (with_first_start s (chunk_run <$> gs)) gs.
Proof.
  intros H. destruct gs as [|g gs]; [constructor|].
  inversion H as [|? ? [_ Hg] Hgs]; subst. cbn. constructor; [exact Hg|].
  clear H Hg. induction Hgs as [|g' gs' [Hg' _] _ IH]; cbn; constructor; done.
Qed.

(** ** The statements of the specification *)

(** C1, at the input where the code departs from it.  The one-row input
    [(0,0,5)] is non-empty and sorted; its only block is the row itself, so
    the run of the specification is [(0,0,0,5)], starting at the time index 0
    of the row.  The call returns [(0,1,0,5)]: the first run starts at the
    constant 1. *)
Theorem first_run_start_ignores_first_row :
  sorted_within_category one_row_at_0 = true
  /\ maximal_runs one_row_at_0 = [Run 0 0 0 5]
  /\ returned one_row_at_0 = Ok [Run 0 1 0 5]
  /\ returned one_row_at_0 ≠ Ok (maximal_runs one_row_at_0).
Proof. repeat split; done. Qed.

(** C2, evaluated: on the input [(0,0,5),(0,1,5),(0,2,7),(0,3,7),(0,4,7)] the
    call returns [(0,1,1,5),(0,2,4,7)], which is not the
    [(0,0,1,5),(0,2,4,7)] of the specification. *)
Theorem spec_example_returned :
  returned spec_example = Ok [Run 0 1 1 5; Run 0 2 4 7]
  /\ returned spec_example ≠ Ok [Run 0 0 1 5; Run 0 2 4 7].
Proof. split; done. Qed.

(** C3 as stated fails: the exception of the call on the empty list is not of
    class EmptyInputError. *)
Lemma empty_input_not_EmptyInputError :
  raised_class (returned []) ≠ Some "EmptyInputError".
Proof. done. Qed.

(** C3, amended: on the empty list the call raises the [IndexError] of
    [pop] on an empty list, returns nothing and leaves the list empty. *)
Theorem empty_input_raises_IndexError :
  compress_interval [] = (Raise (IndexError "pop from empty list"), []).
Proof. reflexivity. Qed.

(** C4 as stated fails: after the call on a one-row list the caller's list
    is not what it was. *)
Lemma call_changes_argument :
  list_after one_row_at_0 ≠ one_row_at_0.
Proof. done. Qed.

(** C4, amended: the call changes the caller's list in one way only, by
    removing its first element: what was at position [i + 1] is at position
    [i] afterwards, and the list is one shorter (an empty list stays
    empty). *)
Theorem call_only_drops_first (l : list row) :
  length (list_after l) = pred (length l)
  /\ forall i : nat, list_after l !! i = l !! S i.
Proof. destruct l as [|x rest]; split; done. Qed.

(** C5: on a non-empty input [x :: rest] the scan ends normally in a state
    [st] and the call returns what the closing assignment
    [final_data[-1][2] = last_intid] makes of it.  The runs returned are
    opened at [x] and then exactly at the rows whose value differs from the
    value of the row before them, in order; the end index of each run is the
    time index of the last row of its block of equal values; and the last
    run ends at the time index of the last input row, which is the
    [last_intid] the scan ended with. *)
Theorem scan_opens_and_closes_runs (x : row) (rest : list row) :
  exists (st : scan_state) (out : list run),
    scan (init_state x) rest = Ok st
    /\ returned (x :: rest) = set_last_end (final_data st) (last_intid st)
    /\ returned (x :: rest) = Ok out
    /\ last_intid st = row1 (default x (last rest))
    /\ run_opening <$> out
       = (row0 x, 1, row2 x) :: (row_opening <$> value_changes (x :: rest))
    /\ run2 <$> out = (fun g => row1 (chunk_last g)) <$> chunks (x :: rest)
    /\ run2 <$> last out = Some (row1 (default x (last rest))).
Proof.
  destruct (scan_ok rest (init_state x) [] (Run (row0 x) 1 (row1 x) (row2 x)) eq_refl)
    as (st & Hst & Hlast).
  exists st, (runs_from (row0 x) 1 (row1 x) (row2 x) rest).
  assert (Hd : default (row1 x) (row1 <$> last rest)
               = row1 (default x (last rest))) by now destruct (last rest).
  split; [exact Hst|]. split.
  { unfold returned, compress_interval, compress_rest. cbn [pop0 fst].
    now rewrite Hst, bind_Ok. }
  split; [apply returned_cons|]. split.
  { rewrite Hlast. exact Hd. }
  split.
  { destruct (runs_from_opening rest (row0 x) 1 (row1 x) (row2 x))
      as (e' & tl & -> & Htl).
    cbn. now rewrite Htl. }
  split.
  { pose proof (returned_maximal_runs x rest) as Hm.
    rewrite returned_cons in Hm. injection Hm as ->.
    rewrite fmap_with_first_start by done.
    unfold maximal_runs. now rewrite <- list_fmap_compose. }
  rewrite runs_from_last. now rewrite Hd.
Qed.

(** C6: on a non-empty input in which no two neighbouring rows have the same
    value the call returns as many runs as the input has rows. *)
Theorem no_repeats_length (l : list row) :
  l ≠ [] ->
  no_repeats l = true ->
  exists out, returned l = Ok out /\ length out = length l.
Proof.
  destruct l as [|x rest]; [done|]. intros _ H.
  exists (runs_from (row0 x) 1 (row1 x) (row2 x) rest).
  split; [apply returned_cons|].
  now apply runs_from_length_no_repeats.
Qed.

Lemma no_repeats_length_witness :
  exists out, returned three_distinct = Ok out /\ length out = 3%nat.
Proof. apply (no_repeats_length three_distinct); [done|reflexivity]. Defined.

(** C7 as stated fails: the rows [(0,1,5),(1,1,5)] are of two categories and
    sorted within each; the call returns one run, of category 0, whose block
    holds the row of category 1. *)
Lemma run_spans_two_categories :
  sorted_within_category two_categories = true
  /\ exists out,
      returned two_categories = Ok out
      /\ ¬ Forall2 single_category out (chunks two_categories).
Proof.
  split; [done|]. exists [Run 0 1 1 5]. split; [done|].
  intros H. cbn in H. inversion H as [|? ? ? ? Hs _]; subst.
  inversion Hs as [|? ? _ Hs']; subst. inversion Hs' as [|? ? Hc _]; subst.
  discriminate Hc.
Qed.

(** C7, amended: on a non-empty input each run carries the category of the
    first row of its block.  The scan compares values only, so a change of
    category between neighbouring rows ends the run only if the value
    changes too: every row of a block carries the category of the block's
    run when neighbouring rows of different category never have equal
    values. *)
Theorem run_category_of_first_row (x : row) (rest : list row) :
  exists out,
    returned (x :: rest) = Ok out
    /\ Forall2 (fun r g => run0 r = row0 g.1) out (chunks (x :: rest))
    /\ (category_change_changes_value (x :: rest) = true ->
        Forall2 single_category out (chunks (x :: rest))).
Proof.
  eexists. split; [apply returned_maximal_runs|]. split.
  - apply Forall2_with_first_start, Forall_forall. done.
  - intros H. apply Forall2_with_first_start.
    eapply Forall_impl; [apply (chunks_single_category _ H)|].
    intros g Hg. cbn beta in Hg. unfold single_category, chunk_rows. cbn [run0].
    split; (constructor; [done|exact Hg]).
Qed.

Lemma run_category_of_first_row_witness :
  exists out,
    returned three_distinct = Ok out
    /\ Forall2 single_category out (chunks three_distinct).
Proof.
  destruct (run_category_of_first_row (Row 0 1 5) [Row 0 2 6; Row 0 3 5])
    as (out & Hout & _ & Hcat).
  exists out. split; [exact Hout|]. apply Hcat. reflexivity.
Defined.

(** C9: on a non-empty input the first run returned starts at the constant
    1, whatever the time index of the first row; each later run starts at
    the time index of the row that opened it, the rows that open a run being
    those whose value differs from the value of the row before them. *)
Theorem first_run_starts_at_1 (l : list row) :
  l ≠ [] ->
  exists (r0 : run) (rs : list run),
    returned l = Ok (r0 :: rs)
    /\ run1 r0 = 1
    /\ run1 <$> rs = row1 <$> value_changes l.
Proof.
  destruct l as [|x rest]; [done|]. intros _.
  destruct (runs_from_opening rest (row0 x) 1 (row1 x) (row2 x))
    as (e' & tl & E & Htl).
  exists (Run (row0 x) 1 e' (row2 x)), tl.
  split; [now rewrite returned_cons, E|]. split; [done|].
  change (run1 <$> tl) with ((fun p : Z * Z * Z => p.1.2) ∘ run_opening <$> tl).
  change (row1 <$> value_changes (x :: rest))
    with ((fun p : Z * Z * Z => p.1.2) ∘ row_opening <$> changes (row2 x) rest).
  now rewrite !list_fmap_compose, Htl.
Qed.

Lemma first_run_starts_at_1_witness :
  exists (r0 : run) (rs : list run),
    returned spec_example = Ok (r0 :: rs)
    /\ run1 r0 = 1
    /\ run1 <$> rs = row1 <$> value_changes spec_example.
Proof. apply (first_run_starts_at_1 spec_example). done. Defined.

(** C10: the call changes its argument: after a call on a non-empty list
    the caller's list is the list it was without its first element, the
    other elements unchanged and in their order. *)
Theorem pop_removes_first_row (l : list row) :
  l ≠ [] ->
  exists x, l = x :: list_after l.
Proof. destruct l as [|x rest]; [done|]. intros _. now exists x. Qed.

Lemma pop_removes_first_row_witness :
  exists x, spec_example = x :: list_after spec_example.
Proof. apply (pop_removes_first_row spec_example). done. Defined.

End CompressIntervalFacts.

(** * Further properties of [compress_interval] *)

Module CompressIntervalMore.
Import CompressInterval CompressIntervalFacts.

(** ** Counting runs *)

Lemma length_changes (rest : list row) :
  forall v : Z,
    (length (changes v rest) <= length rest)%nat
    /\ (length (changes v rest) = length rest <-> no_repeats_from v rest = true).
Proof.
  induction rest as [|r rest IH]; intros v; cbn [changes no_repeats_from].
  - done.
  - destruct (IH (row2 r)) as [Hle Hiff].
    rewrite length_app. case_bool_decide; cbn [length andb].
    + split; [lia|]. rewrite <- Hiff. lia.
    + split; [lia|]. split; [lia|done].
Qed.

Lemma length_runs_from (rest : list row) (c s e v : Z) :
  length (runs_from c s e v rest) = S (length (changes v rest)).
Proof.
  destruct (runs_from_opening rest c s e v) as (e' & tl & -> & Htl).
  cbn [length]. f_equal.
  rewrite <- (length_fmap run_opening), Htl. apply length_fmap.
Qed.

(** X2: on a non-empty input the call returns one run more than there are
    rows whose value differs from the value of the row before them: at least
    one run, never more runs than rows, and as many runs as rows exactly
    when no two neighbouring rows have the same value. *)
Theorem run_count (l : list row) :
  l ≠ [] ->
  exists out,
    returned l = Ok out
    /\ length out = S (length (value_changes l))
    /\ (1 <= length out <= length l)%nat
    /\ (length out = length l <-> no_repeats l = true).
Proof.
  destruct l as [|x rest]; [done|]. intros _.
  exists (runs_from (row0 x) 1 (row1 x) (row2 x) rest).
  split; [apply returned_cons|]. rewrite length_runs_from.
  cbn [value_changes no_repeats length].
  destruct (length_changes rest (row2 x)) as [Hle Hiff].
  split; [done|]. split; [lia|]. rewrite <- Hiff. lia.
Qed.

Lemma run_count_witness :
  exists out,
    returned from_index_1 = Ok out
    /\ length out = S (length (value_changes from_index_1))
    /\ (1 <= length out <= length from_index_1)%nat
    /\ (length out = length from_index_1 <-> no_repeats from_index_1 = true).
Proof. apply (run_count from_index_1). done. Defined.

(** ** The values of the runs *)

Lemma changes_collapse (rest : list row) :
  forall v : Z, row2 <$> changes v rest = collapse_from v (row2 <$> rest).
Proof.
  induction rest as [|r rest IH]; intros v; [done|].
  cbn [changes collapse_from fmap list_fmap]. rewrite fmap_app, IH.
  by case_bool_decide.
Qed.

Lemma collapse_from_distinct (vs : list Z) :
  forall v : Z, neighbours_distinct (v :: collapse_from v vs).
Proof.
  induction vs as [|w vs IH]; intros v; cbn [collapse_from].
  - done.
  - case_bool_decide as Hw; cbn [app].
    + split; [congruence|apply IH].
    + assert (w = v) as -> by (destruct (decide (w = v)); [done|tauto]).
      apply IH.
Qed.

(** X3: on a non-empty input the values of the runs returned are, in order,
    the values of the input with each stretch of equal neighbours reduced to
    one; no two neighbouring runs have the same value. *)
Theorem run_values_collapse (l : list row) :
  l ≠ [] ->
  exists out,
    returned l = Ok out
    /\ run3 <$> out = collapse (row2 <$> l)
    /\ neighbours_distinct (run3 <$> out).
Proof.
  destruct l as [|x rest]; [done|]. intros _.
  destruct (runs_from_opening rest (row0 x) 1 (row1 x) (row2 x))
    as (e' & tl & E & Htl).
  exists (Run (row0 x) 1 e' (row2 x) :: tl).
  split; [by rewrite returned_cons, E|].
  assert (Hv : run3 <$> Run (row0 x) 1 e' (row2 x) :: tl
               = collapse (row2 <$> x :: rest)).
  { cbn [fmap list_fmap collapse run3]. f_equal.
    rewrite <- changes_collapse.
    change (run3 <$> tl) with ((fun p : Z * Z * Z => p.2) ∘ run_opening <$> tl).
    change (row2 <$> changes (row2 x) rest)
      with ((fun p : Z * Z * Z => p.2) ∘ row_opening <$> changes (row2 x) rest).
    by rewrite !list_fmap_compose, Htl. }
  split; [exact Hv|]. rewrite Hv. apply collapse_from_distinct.
Qed.

Lemma run_values_collapse_witness :
  exists out,
    returned from_index_1 = Ok out
    /\ run3 <$> out = collapse (row2 <$> from_index_1)
    /\ neighbours_distinct (run3 <$> out).
Proof. apply (run_values_collapse from_index_1). done. Defined.

(** ** Runs as intervals *)

Lemma runs_from_ordered (rest : list row) :
  forall c s e v : Z,
    s <= e ->
    increasing_from e rest = true ->
    Forall (fun r => run1 r <= run2 r) (runs_from c s e v rest)
    /\ ordered_runs (runs_from c s e v rest).
Proof.
  induction rest as [|r rest IH]; intros c s e v Hse Hinc;
    cbn [runs_from increasing_from] in *.
  - split; [by repeat constructor|done].
  - apply andb_true_iff in Hinc as [He%bool_decide_eq_true Hinc].
    case_bool_decide.
    + destruct (IH (row0 r) (row1 r) (row1 r) (row2 r)) as [Hwf Hord];
        [lia|done|].
      split; [by constructor|].
      destruct (runs_from_opening rest (row0 r) (row1 r) (row1 r) (row2 r))
        as (e' & tl & E & _).
      rewrite E in *. cbn [ordered_runs run1 run2]. split; [done|exact Hord].
    + apply IH; [lia|done].
Qed.

(** X4: when the time indices of the input increase strictly and the first
    is at least 1, every run returned starts no later than it ends, and each
    run ends before the next one starts. *)
Theorem runs_ordered (x : row) (rest : list row) :
  1 <= row1 x ->
  increasing (x :: rest) = true ->
  exists out,
    returned (x :: rest) = Ok out
    /\ Forall (fun r => run1 r <= run2 r) out
    /\ ordered_runs out.
Proof.
  intros H1 Hinc. eexists. split; [apply returned_cons|].
  by apply runs_from_ordered.
Qed.

Lemma runs_ordered_witness :
  exists out,
    returned from_index_1 = Ok out
    /\ Forall (fun r => run1 r <= run2 r) out
    /\ ordered_runs out.
Proof.
  apply (runs_ordered (Row 0 1 5) [Row 0 2 5; Row 0 3 7; Row 0 4 7; Row 0 5 7]).
  - done.
  - reflexivity.
Defined.

(** ** Decoding *)

Lemma expand_one (c i v : Z) : expand (Run c i i v) = [Row c i v].
Proof.
  unfold expand. cbn [run0 run1 run2 run3].
  replace (i - i + 1) with 1 by lia. done.
Qed.

Lemma expand_snoc (c s e v : Z) :
  s <= e ->
  expand (Run c s (e + 1) v) = expand (Run c s e v) ++ [Row c (e + 1) v].
Proof.
  intros Hse. unfold expand. cbn [run0 run1 run2 run3].
  replace (e + 1 - s + 1) with ((e - s + 1) + 1) by lia.
  rewrite seqZ_app by lia. rewrite fmap_app. f_equal.
  replace (s + (e - s + 1)) with (e + 1) by lia. done.
Qed.

Lemma decode_runs_from (rest : list row) :
  forall c s e v : Z,
    s <= e ->
    consecutive_from (e + 1) rest = true ->
    Forall (fun r => row0 r = c) rest ->
    decode (runs_from c s e v rest) = expand (Run c s e v) ++ rest.
Proof.
  induction rest as [|r rest IH]; intros c s e v Hse Hcon Hcat;
    cbn [runs_from consecutive_from] in *.
  - unfold decode. cbn. by rewrite !app_nil_r.
  - apply andb_true_iff in Hcon as [He%bool_decide_eq_true Hcon].
    inversion Hcat as [|? ? Hc Hcat']; subst.
    destruct r as [c' i w]. cbn [row0 row1 row2] in *. subst.
    case_bool_decide as Hw.
    + unfold decode. cbn [fmap list_fmap concat].
      change (concat (expand <$> ?l)) with (decode l).
      rewrite (IH c' (e + 1) (e + 1) w) by (done || lia).
      rewrite expand_one. done.
    + assert (w = v) as -> by (destruct (decide (w = v)); [done|tauto]).
      rewrite (IH c' s (e + 1) v) by (done || lia).
      rewrite expand_snoc by done. by rewrite <- app_assoc.
Qed.

(** X5: the encoding loses nothing on an input of one category whose time
    indices are 1, 2, 3, ...: replacing each run returned by one sample of
    its category and value at each time index from its start to its end
    gives the input back. *)
Theorem decode_returned (x : row) (rest : list row) :
  consecutive_from 1 (x :: rest) = true ->
  Forall (fun r => row0 r = row0 x) rest ->
  exists out, returned (x :: rest) = Ok out /\ decode out = x :: rest.
Proof.
  cbn [consecutive_from]. intros [Hx%bool_decide_eq_true Hcon]%andb_true_iff Hcat.
  eexists. split; [apply returned_cons|].
  rewrite Hx. rewrite decode_runs_from by (done || lia).
  rewrite expand_one. destruct x as [c i v]. cbn in *. by subst.
Qed.

Lemma decode_returned_witness :
  exists out, returned from_index_1 = Ok out /\ decode out = from_index_1.
Proof.
  apply (decode_returned (Row 0 1 5)
           [Row 0 2 5; Row 0 3 7; Row 0 4 7; Row 0 5 7]).
  - reflexivity.
  - repeat constructor.
Defined.

(** ** Encoding an input in two parts *)

Lemma runs_from_app (rest1 : list row) (y : row) (rest2 : list row) :
  forall c s e v : Z,
    row2 y ≠ default v (row2 <$> last rest1) ->
    runs_from c s e v (rest1 ++ y :: rest2)
    = runs_from c s e v rest1
      ++ runs_from (row0 y) (row1 y) (row1 y) (row2 y) rest2.
Proof.
  induction rest1 as [|r rest1 IH]; intros c s e v Hy.
  - cbn in *. by rewrite bool_decide_eq_true_2.
  - assert (Hd : default v (row2 <$> last (r :: rest1))
                 = default (row2 r) (row2 <$> last rest1)).
    { rewrite last_cons. by destruct (last rest1). }
    rewrite Hd in Hy. cbn [app runs_from]. case_bool_decide as Hr.
    + rewrite IH by done. done.
    + assert (row2 r = v) as Hv by (destruct (decide (row2 r = v)); [done|tauto]).
      rewrite IH; [done|]. by rewrite <- Hv.
Qed.

Lemma runs_from_maximal_runs (y : row) (rest : list row) :
  runs_from (row0 y) (row1 y) (row1 y) (row2 y) rest = maximal_runs (y :: rest).
Proof.
  rewrite runs_from_chunks. unfold maximal_runs.
  destruct (chunks_cons_head y rest) as (g & gs & ->). done.
Qed.

(** X6: when the last row of [l1] and the first row of [l2] differ in
    value, the call on [l1 ++ l2] returns the runs of the call on [l1]
    followed by the runs of the maximal blocks of [l2], these with their own
    first time index as start: the constant 1 is written for the first run
    of the whole input only. *)
Theorem returned_app (l1 l2 : list row) (z y : row) :
  last l1 = Some z ->
  head l2 = Some y ->
  row2 z ≠ row2 y ->
  exists out1,
    returned l1 = Ok out1
    /\ returned (l1 ++ l2) = Ok (out1 ++ maximal_runs l2).
Proof.
  destruct l1 as [|x rest1]; [done|]. destruct l2 as [|y' rest2]; [done|].
  intros Hz [= ->] Hzy. eexists. split; [apply returned_cons|].
  change ((x :: rest1) ++ y :: rest2) with (x :: (rest1 ++ y :: rest2)).
  rewrite returned_cons, runs_from_app, runs_from_maximal_runs; [done|].
  rewrite last_cons in Hz. destruct (last rest1) as [z'|]; cbn.
  - injection Hz as ->. congruence.
  - injection Hz as ->. congruence.
Qed.

Lemma returned_app_witness :
  exists out1,
    returned [Row 0 1 5; Row 0 2 5] = Ok out1
    /\ returned ([Row 0 1 5; Row 0 2 5] ++ [Row 0 3 7; Row 0 4 7; Row 0 5 7])
       = Ok (out1 ++ maximal_runs [Row 0 3 7; Row 0 4 7; Row 0 5 7]).
Proof.
  apply (returned_app [Row 0 1 5; Row 0 2 5]
           [Row 0 3 7; Row 0 4 7; Row 0 5 7] (Row 0 2 5) (Row 0 3 7));
    done.
Defined.

(** ** Calling again on the same list *)

Lemma list_after_tail (l : list row) : list_after l = drop 1 l.
Proof. by destruct l. Qed.

Lemma returned_raises_iff (l : list row) :
  raised_class (returned l) = Some "IndexError" <-> l = [].
Proof.
  destruct l as [|x rest]; [done|]. rewrite returned_cons. done.
Qed.

(** X7: each call removes one element of the caller's list, so the call
    that follows [n] calls on the same list works on the list without its
    first [n] elements, and it raises [IndexError] exactly when [n] is at
    least the length the list had. *)
Theorem successive_calls (l : list row) (n : nat) :
  Nat.iter n list_after l = drop n l
  /\ (raised_class (returned (Nat.iter n list_after l)) = Some "IndexError"
      <-> (length l <= n)%nat).
Proof.
  assert (Hn : Nat.iter n list_after l = drop n l).
  { induction n as [|n IH]; [done|].
    change (Nat.iter (S n) list_after l)
      with (list_after (Nat.iter n list_after l)).
    rewrite IH, list_after_tail, drop_drop.
    f_equal. lia. }
  split; [exact Hn|]. rewrite Hn, returned_raises_iff. split.
  - apply drop_nil_inv.
  - apply drop_ge.
Qed.

(** ** What the loop keeps *)

(** X8: what the loop keeps.  From a state whose [final_data] ends with a
    run of value [last_value], the loop ends normally, whatever the rows; it
    leaves the runs before that run as they are, changes of that run its end
    only, adds runs after it, and ends again with [final_data] ending with a
    run of value [last_value]. *)
Theorem scan_append_only (rows : list row) :
  forall (st : scan_state) (fd : list run) (cur : run),
    final_data st = fd ++ [cur] ->
    last_value st = run3 cur ->
    exists (st' : scan_state) (e : Z) (more : list run) (cur' : run),
      scan st rows = Ok st'
      /\ final_data st' = fd ++ [set_run2 e cur] ++ more
      /\ last (final_data st') = Some cur'
      /\ last_value st' = run3 cur'.
Proof.
  induction rows as [|r rest IH]; intros st fd cur Hfd Hlv; cbn [scan].
  - exists st, (run2 cur), [], cur. rewrite ret_Ok. split; [done|].
    rewrite Hfd. destruct cur; cbn. rewrite last_snoc. done.
  - destruct (decide (row2 r = last_value st)) as [Hv|Hv].
    + rewrite scan_step_same, bind_Ok by done.
      apply (IH (ScanState (final_data st) (last_value st) (row1 r)) fd cur);
        done.
    + rewrite (scan_step_change st fd cur), bind_Ok by done.
      destruct (IH (ScanState
                      (fd ++ [set_run2 (last_intid st) cur]
                          ++ [Run (row0 r) (row1 r) (row1 r) (row2 r)])
                      (row2 r) (row1 r))
                   (fd ++ [set_run2 (last_intid st) cur])
                   (Run (row0 r) (row1 r) (row1 r) (row2 r)))
        as (st' & e & more & cur' & Hs & Hf & Hl & Hlv').
      { cbn [final_data]. by rewrite app_assoc. }
      { done. }
      exists st', (last_intid st),
        (set_run2 e (Run (row0 r) (row1 r) (row1 r) (row2 r)) :: more), cur'.
      split; [done|]. split; [|done]. rewrite Hf. by rewrite <- app_assoc.
Qed.

Lemma scan_append_only_witness :
  exists (st' : scan_state) (e : Z) (more : list run) (cur' : run),
    scan (init_state (Row 0 1 5)) [Row 0 2 5; Row 0 3 7] = Ok st'
    /\ final_data st' = [] ++ [set_run2 e (Run 0 1 1 5)] ++ more
    /\ last (final_data st') = Some cur'
    /\ last_value st' = run3 cur'.
Proof.
  apply (scan_append_only [Row 0 2 5; Row 0 3 7]
           (init_state (Row 0 1 5)) [] (Run 0 1 1 5)); reflexivity.
Defined.

(** ** Where the fields of the runs come from *)

Lemma runs_from_fields (rest : list row) :
  forall c s e v : Z,
    Forall (fun r => run0 r ∈ c :: (row0 <$> rest)
                     /\ run2 r ∈ e :: (row1 <$> rest)
                     /\ run3 r ∈ v :: (row2 <$> rest))
           (runs_from c s e v rest).
Proof.
  induction rest as [|r rest IH]; intros c s e v; cbn [runs_from].
  - repeat constructor.
  - case_bool_decide.
    + constructor; [cbn; repeat split; by left|].
      eapply Forall_impl; [apply IH|]. cbn. intros r' (H0 & H2 & H3).
      repeat split; by right.
    + eapply Forall_impl; [apply IH|]. cbn. intros r' (H0 & H2 & H3).
      repeat split.
      * apply elem_of_cons in H0 as [->|H0]; [by left|by do 2 right].
      * by right.
      * apply elem_of_cons in H3 as [->|H3]; [by left|by do 2 right].
Qed.

(** X9: the call invents nothing but the first start: on a non-empty input
    the category, the end and the value of every run returned are the
    category, the time index and the value of some input row, and the start
    of every run after the first is the time index of some input row. *)
Theorem run_fields_from_input (l : list row) :
  l ≠ [] ->
  exists out,
    returned l = Ok out
    /\ Forall (fun r => run0 r ∈ row0 <$> l
                        /\ run2 r ∈ row1 <$> l
                        /\ run3 r ∈ row2 <$> l) out
    /\ Forall (fun r => run1 r ∈ row1 <$> l) (tail out).
Proof.
  destruct l as [|x rest]; [done|]. intros _.
  destruct (runs_from_opening rest (row0 x) 1 (row1 x) (row2 x))
    as (e' & tl & E & Htl).
  eexists. split; [apply returned_cons|]. split; [apply runs_from_fields|].
  rewrite E. cbn [tail]. apply Forall_forall. intros r Hr.
  assert (Hin : run_opening r ∈ row_opening <$> changes (row2 x) rest).
  { rewrite <- Htl. apply list_elem_of_fmap. by exists r. }
  apply list_elem_of_fmap in Hin as (y & Hy & Hin).
  injection Hy as _ -> _. right. apply list_elem_of_fmap. exists y.
  split; [done|]. clear -Hin. revert Hin. generalize (row2 x).
  induction rest as [|r rest IH]; intros v; cbn [changes]; [by intros ?%elem_of_nil|].
  rewrite elem_of_app. intros [Hin|Hin].
  - case_bool_decide; [|by apply elem_of_nil in Hin].
    apply list_elem_of_singleton in Hin as ->. by left.
  - right. by apply (IH (row2 r)).
Qed.

Lemma run_fields_from_input_witness :
  exists out,
    returned from_index_1 = Ok out
    /\ Forall (fun r => run0 r ∈ row0 <$> from_index_1
                        /\ run2 r ∈ row1 <$> from_index_1
                        /\ run3 r ∈ row2 <$> from_index_1) out
    /\ Forall (fun r => run1 r ∈ row1 <$> from_index_1) (tail out).
Proof. apply (run_fields_from_input from_index_1). done. Defined.

(** ** When the encoding is the one of the maximal blocks *)

(** X1: on a non-empty input the call returns exactly the encoding by
    maximal blocks of equal value (each run from the time index of the first
    row of its block to that of the last) if and only if the time index of
    the first row is 1, the start the code writes for the first run. *)
Theorem encoding_exact_iff_first_index_1 (l : list row) :
  l ≠ [] ->
  returned l = Ok (maximal_runs l) <-> row1 <$> head l = Some 1.
Proof.
  destruct l as [|x rest]; [done|]. intros _.
  rewrite returned_maximal_iff. cbn. split; [by intros ->|by intros [= ->]].
Qed.

Lemma encoding_exact_iff_first_index_1_witness :
  returned from_index_1 = Ok (maximal_runs from_index_1).
Proof.
  apply (encoding_exact_iff_first_index_1 from_index_1); done.
Defined.

End CompressIntervalMore.

(** * Properties of the document mapper *)

Module MapperFacts.
Import Mapper.

(** ** The walk of one section *)

Section insert_all.
Context {N : Type}.
Variable next_id : nat -> Z.
Variable section_name : string.
Variable ident : N -> Z.
Variable set_ident : Z -> N -> N.
Variable resolve : N -> option N.
Variable admissible : list N -> N -> bool.

Lemma numbered_cons (k : nat) (r : N) (rs : list N) :
  numbered next_id set_ident k (r :: rs)
  = set_ident (next_id k) r :: numbered next_id set_ident (S k) rs.
Proof.
  unfold numbered. rewrite imap_cons, Nat.add_0_r. f_equal.
  apply imap_ext. intros i x _. cbn. now rewrite Nat.add_succ_r.
Qed.

Lemma length_numbered (k : nat) (rs : list N) :
  length (numbered next_id set_ident k rs) = length rs.
Proof. apply length_imap. Qed.

Lemma insert_all_spec (nodes : list N) :
  forall rows0 rows : list N,
    insert_all next_id section_name ident set_ident resolve admissible
               rows0 nodes = Ok rows
    <-> exists rs,
        Forall2 (fun n r => resolve n = Some r) nodes rs
        /\ rows = rows0 ++ numbered next_id set_ident (length rows0) rs
        /\ admitted admissible rows0
                    (numbered next_id set_ident (length rows0) rs).
Proof.
  induction nodes as [|n rest IH]; intros rows0 rows.
  - cbn. split.
    + intros [= <-]. exists []. now rewrite app_nil_r.
    + intros (rs & Hrs & -> & _). inversion Hrs; subst. now rewrite app_nil_r.
  - cbn [insert_all].
    destruct (resolve n) as [r|] eqn:Er.
    + destruct (admissible rows0 (set_ident (next_id (length rows0)) r)) eqn:Ha.
      * rewrite IH. rewrite length_app. cbn [length].
        replace (length rows0 + 1)%nat with (S (length rows0)) by lia.
        split.
        -- intros (rs & Hm & -> & Hadm). exists (r :: rs).
           split; [by constructor|].
           rewrite numbered_cons, <- app_assoc. cbn. done.
        -- intros (rs' & Hm & -> & Hadm).
           inversion Hm as [|? r' ? rs Hr Hrs]; subst.
           assert (r' = r) as -> by congruence. exists rs.
           rewrite numbered_cons, <- app_assoc in *. cbn in *.
           split; [done|]. split; [done|]. apply Hadm.
      * split; [done|]. intros (rs' & Hm & _ & Hadm).
        inversion Hm as [|? r' ? rs Hr Hrs]; subst.
        assert (r' = r) as -> by congruence.
        rewrite numbered_cons in Hadm. cbn in Hadm.
        destruct Hadm as [Hadm _]. congruence.
    + split; [done|]. intros (rs' & Hm & _).
      inversion Hm; subst. congruence.
Qed.

Lemma ident_numbered (k : nat) (rs : list N) :
  (forall i r, ident (set_ident i r) = i) ->
  ids_of ident (numbered next_id set_ident k rs) = next_id <$> seq k (length rs).
Proof.
  intros Hid. revert k. induction rs as [|r rs IH]; intros k; [done|].
  rewrite numbered_cons. cbn. unfold ids_of in IH. now rewrite Hid, IH.
Qed.

Lemma elem_of_numbered (k : nat) (rs : list N) (r : N) :
  r ∈ numbered next_id set_ident k rs ->
  exists i r0, r0 ∈ rs /\ r = set_ident i r0.
Proof.
  unfold numbered. intros (i & r0 & -> & Hr0)%elem_of_lookup_imap_1.
  exists (next_id (k + i)), r0. split; [|done].
  by eapply list_elem_of_lookup_2.
Qed.

Lemma admitted_unconstrained (rows new : list N) :
  admitted unconstrained rows new.
Proof. revert rows. induction new; intros rows; cbn; auto. Qed.

Lemma admitted_keyed {K} `{EqDecision K} (own : N -> bool) (key : N -> K)
    (new : list N) :
  forall rows,
    admitted (keyed own key) rows new
    <-> Forall (fun r => own r = true) new
        /\ NoDup (key <$> new)
        /\ forall r, r ∈ new -> key r ∉ key <$> rows.
Proof.
  induction new as [|r new IH]; intros rows; cbn [admitted].
  - split; [|done]. intros _. split; [constructor|]. split; [constructor|].
    intros r Hr. by apply elem_of_nil in Hr.
  - rewrite IH. unfold keyed. rewrite andb_true_iff, bool_decide_eq_true.
    rewrite fmap_cons, NoDup_cons, Forall_cons. split.
    + intros ((Hown & Hkey) & Hall & Hnd & Hnew). repeat split; try done.
      * intros (r' & Hk & Hr')%list_elem_of_fmap.
        apply (Hnew r' Hr'). rewrite fmap_app, elem_of_app. right.
        rewrite <- Hk. cbn. by apply list_elem_of_singleton.
      * intros r' [->|Hr']%elem_of_cons; [done|].
        intros Hin. apply (Hnew r' Hr'). rewrite fmap_app, elem_of_app.
        by left.
    + intros ((Hown & Hall) & (Hr & Hnd) & Hnew). repeat split; try done.
      * apply Hnew. by left.
      * intros r' Hr'. rewrite fmap_app, elem_of_app. intros [Hin|Hin].
        -- apply (Hnew r'); [by right|done].
        -- apply list_elem_of_singleton in Hin. apply Hr.
           rewrite <- Hin. apply list_elem_of_fmap. by exists r'.
Qed.

(** ** The identifiers given to a section *)

Lemma id_map_keys (nodes : list N) :
  (imap (fun k n => (ident n, next_id k)) nodes).*1 = ident <$> nodes.
Proof.
  apply list_eq. intros i.
  rewrite !list_lookup_fmap, list_lookup_imap. by destruct (nodes !! i).
Qed.

Lemma id_map_lookup_Some (nodes : list N) (d v : Z) :
  id_map next_id ident nodes !! d = Some v ->
  exists k n, nodes !! k = Some n /\ ident n = d /\ v = next_id k.
Proof.
  unfold id_map. intros H%elem_of_list_to_map_2.
  apply elem_of_lookup_imap_1 in H as (k & n & [= -> ->] & Hn). eauto.
Qed.

Lemma id_map_lookup (nodes : list N) (k : nat) (n : N) :
  NoDup (ident <$> nodes) ->
  nodes !! k = Some n ->
  id_map next_id ident nodes !! ident n = Some (next_id k).
Proof.
  intros Hnd Hn. unfold id_map. apply elem_of_list_to_map_1.
  - by rewrite id_map_keys.
  - by apply (elem_of_lookup_imap_2 (fun k n => (ident n, next_id k))).
Qed.

Lemma id_map_value (nodes : list N) (d v : Z) (ids : list Z) :
  ids = next_id <$> seq 0 (length nodes) ->
  id_map next_id ident nodes !! d = Some v ->
  v ∈ ids.
Proof.
  intros -> (k & n & Hn & _ & ->)%id_map_lookup_Some.
  apply list_elem_of_fmap. exists k. split; [done|].
  apply elem_of_seq. apply lookup_lt_Some in Hn. lia.
Qed.

Lemma look_id_map (nodes : list N) (k : nat) (n : N) :
  NoDup (ident <$> nodes) ->
  nodes !! k = Some n ->
  look (id_map next_id ident nodes) (ident n) = next_id k.
Proof. intros Hnd Hn. unfold look. by rewrite (id_map_lookup nodes k n). Qed.

Lemma look_injective (nodes : list N) :
  Inj (=) (=) next_id ->
  NoDup (ident <$> nodes) ->
  injective_on (look (id_map next_id ident nodes)) (ident <$> nodes).
Proof.
  intros Hinj Hnd i j Hi Hj.
  apply list_elem_of_fmap in Hi as (n1 & -> & Hn1).
  apply list_elem_of_fmap in Hj as (n2 & -> & Hn2).
  apply list_elem_of_lookup in Hn1 as (k1 & Hk1).
  apply list_elem_of_lookup in Hn2 as (k2 & Hk2).
  rewrite (look_id_map nodes k1 n1), (look_id_map nodes k2 n2) by done.
  intros Hk%Hinj. subst k2. congruence.
Qed.

Lemma numbered_look (nodes : list N) (f : N -> N) :
  NoDup (ident <$> nodes) ->
  numbered next_id set_ident 0 (f <$> nodes)
  = (fun n => set_ident (look (id_map next_id ident nodes) (ident n)) (f n))
      <$> nodes.
Proof.
  intros Hnd. apply list_eq. intros k. unfold numbered.
  rewrite list_lookup_imap, !list_lookup_fmap.
  destruct (nodes !! k) as [n|] eqn:Hn; [|done]. cbn.
  by rewrite (look_id_map nodes k n).
Qed.

Lemma NoDup_ids_numbered (rs : list N) :
  Inj (=) (=) next_id ->
  (forall i r, ident (set_ident i r) = i) ->
  NoDup (ids_of ident (numbered next_id set_ident 0 rs)).
Proof.
  intros Hinj Hid. rewrite ident_numbered by done.
  apply (NoDup_fmap_2 _), NoDup_seq.
Qed.

(** A section all of whose references resolve and whose rows the table
    admits loads into those rows. *)
Lemma insert_all_resolved (nodes : list N) (f : N -> N) :
  Forall (fun n => resolve n = Some (f n)) nodes ->
  admitted admissible [] (numbered next_id set_ident 0 (f <$> nodes)) ->
  insert_all next_id section_name ident set_ident resolve admissible [] nodes
  = Ok (numbered next_id set_ident 0 (f <$> nodes)).
Proof.
  intros Hres Hadm. apply insert_all_spec. exists (f <$> nodes).
  split; [|done]. apply Forall2_fmap_r, Forall_Forall2_diag. done.
Qed.

Lemma id_map_look (nodes : list N) (d : Z) :
  NoDup (ident <$> nodes) ->
  d ∈ ident <$> nodes ->
  id_map next_id ident nodes !! d = Some (look (id_map next_id ident nodes) d).
Proof.
  intros Hnd (n & -> & Hn)%list_elem_of_fmap.
  apply list_elem_of_lookup in Hn as (k & Hk).
  by rewrite (look_id_map nodes k n), (id_map_lookup nodes k n).
Qed.

(** A section without repeated identifiers, all of whose references resolve
    and whose rows the table admits, loads into its nodes renumbered. *)
Lemma insert_all_renumbered (nodes : list N) (f g : N -> N) :
  NoDup (ident <$> nodes) ->
  Forall (fun n => resolve n = Some (f n)) nodes ->
  (forall n, g n = set_ident (look (id_map next_id ident nodes) (ident n)) (f n)) ->
  admitted admissible [] (g <$> nodes) ->
  insert_all next_id section_name ident set_ident resolve admissible [] nodes
  = Ok (g <$> nodes).
Proof.
  intros Hnd Hres Hg Hadm.
  assert (E : numbered next_id set_ident 0 (f <$> nodes) = g <$> nodes).
  { rewrite numbered_look by done. apply list_fmap_ext. intros _ n _.
    by rewrite Hg. }
  rewrite <- E in *. by apply insert_all_resolved.
Qed.

Lemma admitted_keyed_nil {K} `{EqDecision K} (own : N -> bool) (key : N -> K)
    (new : list N) :
  Forall (fun r => own r = true) new ->
  NoDup (key <$> new) ->
  admitted (keyed own key) [] new.
Proof.
  intros Hown Hnd. apply admitted_keyed. split; [done|]. split; [done|].
  intros r _. cbn. apply not_elem_of_nil.
Qed.

Lemma NoDup_key_renumbered {K} (key : N -> K) (h : K -> K) (g : N -> N)
    (nodes : list N) :
  (forall n, key (g n) = h (key n)) ->
  (forall x y, x ∈ key <$> nodes -> y ∈ key <$> nodes -> h x = h y -> x = y) ->
  NoDup (key <$> nodes) ->
  NoDup (key <$> (g <$> nodes)).
Proof.
  intros Hkey Hinj Hnd. rewrite <- list_fmap_compose.
  rewrite (list_fmap_ext (key ∘ g) (h ∘ key) nodes)
    by (intros; cbn; auto).
  rewrite list_fmap_compose. by apply NoDup_fmap_2_strong.
Qed.

Lemma insert_all_ids (nodes rows : list N) :
  (forall i r, ident (set_ident i r) = i) ->
  insert_all next_id section_name ident set_ident resolve admissible [] nodes
  = Ok rows ->
  ids_of ident rows = next_id <$> seq 0 (length nodes).
Proof.
  intros Hid (rs & Hrs & -> & _)%insert_all_spec. cbn [app length].
  rewrite ident_numbered by done. by rewrite (Forall2_length _ _ _ Hrs).
Qed.

Lemma insert_all_elem (nodes rows : list N) (r : N) :
  insert_all next_id section_name ident set_ident resolve admissible [] nodes
  = Ok rows ->
  r ∈ rows ->
  exists i n r0, n ∈ nodes /\ resolve n = Some r0 /\ r = set_ident i r0.
Proof.
  intros (rs & Hrs & -> & _)%insert_all_spec Hr. cbn [app length] in Hr.
  apply elem_of_numbered in Hr as (i & r0 & Hr0 & ->).
  apply list_elem_of_lookup in Hr0 as (k & Hk).
  destruct (Forall2_lookup_r _ _ _ _ _ Hrs Hk) as (n & Hn & Hres).
  exists i, n, r0. split; [|done]. by eapply list_elem_of_lookup_2.
Qed.

Lemma insert_all_admitted (nodes rows : list N) :
  insert_all next_id section_name ident set_ident resolve admissible [] nodes
  = Ok rows ->
  admitted admissible [] rows.
Proof. by intros (rs & _ & -> & Hadm)%insert_all_spec. Qed.

End insert_all.

Lemma numbered_no_id {N} (next_id : nat -> Z) (k : nat) (rs : list N) :
  numbered next_id (fun _ r => r) k rs = rs.
Proof.
  unfold numbered. apply list_eq. intros i. rewrite list_lookup_imap.
  by destruct (rs !! i).
Qed.

Lemma insert_all_plain {N} (next_id : nat -> Z) (section_name : string)
    (ident : N -> Z) (resolve : N -> option N)
    (admissible : list N -> N -> bool) (nodes : list N) (g : N -> N) :
  Forall (fun n => resolve n = Some (g n)) nodes ->
  admitted admissible [] (g <$> nodes) ->
  insert_all next_id section_name ident (fun _ r => r) resolve admissible
             [] nodes
  = Ok (g <$> nodes).
Proof.
  intros Hres Hadm.
  rewrite <- (numbered_no_id next_id 0 (g <$> nodes)) in *.
  by apply insert_all_resolved.
Qed.

Lemma injective_on_Permutation (f : Z -> Z) (l1 l2 : list Z) :
  l1 ≡ₚ l2 -> injective_on f l1 -> injective_on f l2.
Proof.
  intros Hp Hinj i j Hi Hj. apply Hinj; by rewrite Hp.
Qed.

Lemma class_matches_true (os : list Object) (ads : list AttributeDef)
    (v : AttributeValue) :
  class_matches os ads v = true
  <-> exists o a,
      o ∈ os /\ a ∈ ads
      /\ object_id o = value_object_id v
      /\ attribute_id a = value_attribute_id v
      /\ object_class_id o = attribute_class_id a.
Proof.
  unfold class_matches. rewrite existsb_exists. split.
  - intros (o & Ho & (a & Ha & H)%existsb_exists).
    rewrite !andb_true_iff, !bool_decide_eq_true in H.
    exists o, a. rewrite !list_elem_of_In. tauto.
  - intros (o & a & Ho & Ha & H). exists o.
    split; [by apply list_elem_of_In|]. apply existsb_exists. exists a.
    split; [by apply list_elem_of_In|].
    rewrite !andb_true_iff, !bool_decide_eq_true. tauto.
Qed.

Lemma filter_all {A} (P : A -> Prop) `{forall x, Decision (P x)} (l : list A) :
  Forall P l -> filter P l = l.
Proof.
  induction 1 as [|x l Hx _ IH]; [done|].
  rewrite filter_cons_True by done. by rewrite IH.
Qed.

Lemma sort_on_Permutation {A} (key : A -> list Z) (l : list A) :
  sort_on key l ≡ₚ l.
Proof. apply merge_sort_Permutation. Qed.

(** ** [load] *)

Section load.
Variable next_id : nat -> Z.
Hypothesis next_id_inj : Inj (=) (=) next_id.

Lemma load_Ok (doc : Document) (s : Store) :
  load next_id doc = Ok s
  <-> insert_all next_id "Class" class_id set_class_id resolve_class
        unconstrained [] (class_section doc) = Ok (classes s)
      /\ insert_all next_id "AttributeDef" attribute_id set_attribute_id
          (resolve_attribute_def (id_map next_id class_id (class_section doc)))
          (keyed (fun _ => true) attribute_def_key)
          [] (attribute_def_section doc) = Ok (attribute_defs s)
      /\ insert_all next_id "Object" object_id set_object_id
          (resolve_object (id_map next_id class_id (class_section doc)))
          (keyed (fun _ => true) object_key)
          [] (object_section doc) = Ok (objects s)
      /\ insert_all next_id "AttributeValue" value_object_id (fun _ v => v)
          (resolve_attribute_value
             (id_map next_id object_id (object_section doc))
             (id_map next_id attribute_id (attribute_def_section doc)))
          (keyed (class_matches (objects s) (attribute_defs s))
                 attribute_value_key)
          [] (attribute_value_section doc) = Ok (attribute_values s)
      /\ insert_all next_id "Category" category_id set_category_id
          (resolve_category (id_map next_id class_id (class_section doc)))
          unconstrained [] (category_section doc) = Ok (categories s)
      /\ insert_all next_id "Membership" membership_id set_membership_id
          (resolve_membership (id_map next_id object_id (object_section doc)))
          (keyed not_self membership_key)
          [] (membership_section doc) = Ok (memberships s).
Proof.
  unfold load. destruct s as [cs ads os vs ks ms]. cbn [classes attribute_defs
    objects attribute_values categories memberships].
  destruct (insert_all next_id "Class" _ _ _ _ _ _) as [cs'|e];
    [rewrite bind_Ok|rewrite bind_Raise; split; [discriminate|intros [? _]; discriminate]].
  destruct (insert_all next_id "AttributeDef" _ _ _ _ _ _) as [ads'|e];
    [rewrite bind_Ok|rewrite bind_Raise; split; [discriminate|intros (? & ? & _); discriminate]].
  destruct (insert_all next_id "Object" _ _ _ _ _ _) as [os'|e];
    [rewrite bind_Ok|rewrite bind_Raise; split; [discriminate|intros (? & ? & ? & _); discriminate]].
  split.
  - intros H.
    destruct (insert_all next_id "AttributeValue" _ _ _ _ _
                         (attribute_value_section doc)) as [vs'|e] eqn:Ev in H;
      [rewrite bind_Ok in H|rewrite bind_Raise in H; discriminate].
    destruct (insert_all next_id "Category" _ _ _ _ _ _) as [ks'|e];
      [rewrite bind_Ok in H|rewrite bind_Raise in H; discriminate].
    destruct (insert_all next_id "Membership" _ _ _ _ _ _) as [ms'|e];
      [rewrite bind_Ok in H|rewrite bind_Raise in H; discriminate].
    rewrite ret_Ok in H. injection H as -> -> -> -> -> ->. by rewrite Ev.
  - intros ([= ->] & [= ->] & [= ->] & -> & -> & ->).
    by rewrite !bind_Ok, ret_Ok.
Qed.

(** *** What resolving a node does *)

Lemma resolve_attribute_def_Some (ids : gmap Z Z) (n r : AttributeDef) :
  resolve_attribute_def ids n = Some r ->
  ids !! attribute_class_id n = Some (attribute_class_id r).
Proof.
  unfold resolve_attribute_def.
  destruct (ids !! attribute_class_id n); cbn; [|done]. by intros [= <-].
Qed.

Lemma resolve_object_Some (ids : gmap Z Z) (n r : Object) :
  resolve_object ids n = Some r ->
  ids !! object_class_id n = Some (object_class_id r).
Proof.
  unfold resolve_object.
  destruct (ids !! object_class_id n); cbn; [|done]. by intros [= <-].
Qed.

Lemma resolve_category_Some (ids : gmap Z Z) (n r : Category) :
  resolve_category ids n = Some r ->
  ids !! category_class_id n = Some (category_class_id r).
Proof.
  unfold resolve_category.
  destruct (ids !! category_class_id n); cbn; [|done]. by intros [= <-].
Qed.

Lemma resolve_attribute_value_Some (oids aids : gmap Z Z)
    (n r : AttributeValue) :
  resolve_attribute_value oids aids n = Some r ->
  oids !! value_object_id n = Some (value_object_id r)
  /\ aids !! value_attribute_id n = Some (value_attribute_id r).
Proof.
  unfold resolve_attribute_value.
  destruct (oids !! value_object_id n); cbn; [|done].
  destruct (aids !! value_attribute_id n); cbn; [|done]. by intros [= <-].
Qed.

Lemma resolve_membership_Some (ids : gmap Z Z) (n r : Membership) :
  resolve_membership ids n = Some r ->
  ids !! parent_object_id n = Some (parent_object_id r)
  /\ ids !! child_object_id n = Some (child_object_id r).
Proof.
  unfold resolve_membership.
  destruct (ids !! parent_object_id n); cbn; [|done].
  destruct (ids !! child_object_id n); cbn; [|done]. by intros [= <-].
Qed.

(** *** A loaded store keeps the invariants of section 3 *)

Lemma load_well_formed (doc : Document) (s : Store) :
  load next_id doc = Ok s -> well_formed s.
Proof.
  intros (Hc & Ha & Ho & Hv & Hk & Hm)%load_Ok.
  pose proof (insert_all_ids next_id _ class_id set_class_id _ _ _ _
                (fun _ _ => eq_refl) Hc) as Ic.
  pose proof (insert_all_ids next_id _ attribute_id set_attribute_id _ _ _ _
                (fun _ _ => eq_refl) Ha) as Ia.
  pose proof (insert_all_ids next_id _ object_id set_object_id _ _ _ _
                (fun _ _ => eq_refl) Ho) as Io.
  pose proof (insert_all_ids next_id _ category_id set_category_id _ _ _ _
                (fun _ _ => eq_refl) Hk) as Ik.
  pose proof (insert_all_ids next_id _ membership_id set_membership_id _ _ _ _
                (fun _ _ => eq_refl) Hm) as Im.
  constructor.
  - rewrite Ic. apply (NoDup_fmap_2 _), NoDup_seq.
  - rewrite Ia. apply (NoDup_fmap_2 _), NoDup_seq.
  - rewrite Io. apply (NoDup_fmap_2 _), NoDup_seq.
  - rewrite Ik. apply (NoDup_fmap_2 _), NoDup_seq.
  - rewrite Im. apply (NoDup_fmap_2 _), NoDup_seq.
  - apply Forall_forall. intros a Hin.
    destruct (insert_all_elem _ _ _ _ _ _ _ _ _ Ha Hin)
      as (i & n & r0 & _ & Hres & ->).
    apply resolve_attribute_def_Some in Hres.
    exact (id_map_value _ _ _ _ _ _ Ic Hres).
  - apply Forall_forall. intros o Hin.
    destruct (insert_all_elem _ _ _ _ _ _ _ _ _ Ho Hin)
      as (i & n & r0 & _ & Hres & ->).
    apply resolve_object_Some in Hres.
    exact (id_map_value _ _ _ _ _ _ Ic Hres).
  - apply Forall_forall. intros v Hin.
    destruct (insert_all_elem _ _ _ _ _ _ _ _ _ Hv Hin)
      as (i & n & r0 & _ & Hres & ->).
    apply resolve_attribute_value_Some in Hres as [Hro Hra]. split.
    + exact (id_map_value _ _ _ _ _ _ Io Hro).
    + exact (id_map_value _ _ _ _ _ _ Ia Hra).
  - apply Forall_forall. intros k Hin.
    destruct (insert_all_elem _ _ _ _ _ _ _ _ _ Hk Hin)
      as (i & n & r0 & _ & Hres & ->).
    apply resolve_category_Some in Hres.
    exact (id_map_value _ _ _ _ _ _ Ic Hres).
  - apply Forall_forall. intros m Hin.
    destruct (insert_all_elem _ _ _ _ _ _ _ _ _ Hm Hin)
      as (i & n & r0 & _ & Hres & ->).
    apply resolve_membership_Some in Hres as [Hrp Hrc]. split.
    + exact (id_map_value _ _ _ _ _ _ Io Hrp).
    + exact (id_map_value _ _ _ _ _ _ Io Hrc).
  - apply insert_all_admitted, admitted_keyed in Ha. tauto.
  - apply insert_all_admitted, admitted_keyed in Ho. tauto.
  - apply insert_all_admitted, admitted_keyed in Hv. tauto.
  - apply insert_all_admitted, admitted_keyed in Hm. tauto.
  - apply insert_all_admitted, admitted_keyed in Hv. tauto.
  - apply insert_all_admitted, admitted_keyed in Hm. tauto.
Qed.

End load.

(** ** Loading a document that holds the rows of a well-formed store *)

Section reload.
Variable next_id : nat -> Z.
Hypothesis next_id_inj : Inj (=) (=) next_id.
Variable s : Store.
Variable doc : Document.
Hypothesis Hwf : well_formed s.
Hypothesis Pc : class_section doc ≡ₚ classes s.
Hypothesis Pa : attribute_def_section doc ≡ₚ attribute_defs s.
Hypothesis Po : object_section doc ≡ₚ objects s.
Hypothesis Pv : attribute_value_section doc ≡ₚ attribute_values s.
Hypothesis Pk : category_section doc ≡ₚ categories s.
Hypothesis Pm : membership_section doc ≡ₚ memberships s.

Local Abbreviation f := (renumbering_of next_id doc).

Lemma reload_class_NoDup : NoDup (class_id <$> class_section doc).
Proof. rewrite Pc. apply Hwf. Qed.

Lemma reload_attribute_NoDup :
  NoDup (attribute_id <$> attribute_def_section doc).
Proof. rewrite Pa. apply Hwf. Qed.

Lemma reload_object_NoDup : NoDup (object_id <$> object_section doc).
Proof. rewrite Po. apply Hwf. Qed.

Lemma reload_category_NoDup : NoDup (category_id <$> category_section doc).
Proof. rewrite Pk. apply Hwf. Qed.

Lemma reload_membership_NoDup :
  NoDup (membership_id <$> membership_section doc).
Proof. rewrite Pm. apply Hwf. Qed.

Lemma class_id_known (d : Z) :
  d ∈ ids_of class_id (classes s) ->
  id_map next_id class_id (class_section doc) !! d = Some (on_class f d).
Proof.
  intros Hd. apply id_map_look; [apply reload_class_NoDup|]. by rewrite Pc.
Qed.

Lemma attribute_id_known (d : Z) :
  d ∈ ids_of attribute_id (attribute_defs s) ->
  id_map next_id attribute_id (attribute_def_section doc) !! d
  = Some (on_attribute f d).
Proof.
  intros Hd. apply id_map_look; [apply reload_attribute_NoDup|]. by rewrite Pa.
Qed.

Lemma object_id_known (d : Z) :
  d ∈ ids_of object_id (objects s) ->
  id_map next_id object_id (object_section doc) !! d = Some (on_object f d).
Proof.
  intros Hd. apply id_map_look; [apply reload_object_NoDup|]. by rewrite Po.
Qed.

Lemma reload_renumbers : renumbers f s.
Proof.
  repeat split.
  - eapply injective_on_Permutation;
      [|apply look_injective; [done|apply reload_class_NoDup]].
    unfold ids_of. by rewrite Pc.
  - eapply injective_on_Permutation;
      [|apply look_injective; [done|apply reload_attribute_NoDup]].
    unfold ids_of. by rewrite Pa.
  - eapply injective_on_Permutation;
      [|apply look_injective; [done|apply reload_object_NoDup]].
    unfold ids_of. by rewrite Po.
  - eapply injective_on_Permutation;
      [|apply look_injective; [done|apply reload_category_NoDup]].
    unfold ids_of. by rewrite Pk.
  - eapply injective_on_Permutation;
      [|apply look_injective; [done|apply reload_membership_NoDup]].
    unfold ids_of. by rewrite Pm.
Qed.

Lemma on_class_inj : injective_on (on_class f) (ids_of class_id (classes s)).
Proof. apply reload_renumbers. Qed.

Lemma on_attribute_inj :
  injective_on (on_attribute f) (ids_of attribute_id (attribute_defs s)).
Proof. apply reload_renumbers. Qed.

Lemma on_object_inj :
  injective_on (on_object f) (ids_of object_id (objects s)).
Proof. apply reload_renumbers. Qed.

(** References of the nodes of [doc] *)

Lemma doc_attribute_class (a : AttributeDef) :
  a ∈ attribute_def_section doc ->
  attribute_class_id a ∈ ids_of class_id (classes s).
Proof.
  rewrite Pa. intros Ha.
  exact (proj1 (Forall_forall _ _) (wf_attribute_class s Hwf) a Ha).
Qed.

Lemma doc_object_class (o : Object) :
  o ∈ object_section doc ->
  object_class_id o ∈ ids_of class_id (classes s).
Proof.
  rewrite Po. intros Ho.
  exact (proj1 (Forall_forall _ _) (wf_object_class s Hwf) o Ho).
Qed.

Lemma doc_category_class (k : Category) :
  k ∈ category_section doc ->
  category_class_id k ∈ ids_of class_id (classes s).
Proof.
  rewrite Pk. intros Hk.
  exact (proj1 (Forall_forall _ _) (wf_category_class s Hwf) k Hk).
Qed.

Lemma doc_value_refs (v : AttributeValue) :
  v ∈ attribute_value_section doc ->
  value_object_id v ∈ ids_of object_id (objects s)
  /\ value_attribute_id v ∈ ids_of attribute_id (attribute_defs s).
Proof.
  rewrite Pv. intros Hv.
  exact (proj1 (Forall_forall _ _) (wf_value_refs s Hwf) v Hv).
Qed.

Lemma doc_membership_refs (m : Membership) :
  m ∈ membership_section doc ->
  parent_object_id m ∈ ids_of object_id (objects s)
  /\ child_object_id m ∈ ids_of object_id (objects s).
Proof.
  rewrite Pm. intros Hm.
  exact (proj1 (Forall_forall _ _) (wf_membership_refs s Hwf) m Hm).
Qed.

(** The sections, one by one *)

Lemma reload_classes :
  insert_all next_id "Class" class_id set_class_id resolve_class
             unconstrained [] (class_section doc)
  = Ok (renumber_class f <$> class_section doc).
Proof.
  apply (insert_all_renumbered _ _ _ _ _ _ _ (fun n => n)).
  - apply reload_class_NoDup.
  - by apply Forall_forall.
  - done.
  - apply admitted_unconstrained.
Qed.

Lemma reload_attribute_defs :
  insert_all next_id "AttributeDef" attribute_id set_attribute_id
             (resolve_attribute_def (id_map next_id class_id (class_section doc)))
             (keyed (fun _ => true) attribute_def_key)
             [] (attribute_def_section doc)
  = Ok (renumber_attribute_def f <$> attribute_def_section doc).
Proof.
  apply (insert_all_renumbered _ _ _ _ _ _ _
           (fun n => MkAttributeDef (attribute_id n)
                       (on_class f (attribute_class_id n))
                       (attribute_name n) (default_value n) (enum_id n))).
  - apply reload_attribute_NoDup.
  - apply Forall_forall. intros n Hn. unfold resolve_attribute_def.
    by rewrite (class_id_known _ (doc_attribute_class n Hn)).
  - done.
  - apply admitted_keyed_nil; [by apply Forall_forall|].
    apply (NoDup_key_renumbered _ (fun k => (on_class f k.1, k.2))).
    + done.
    + intros [c1 n1] [c2 n2] (a1 & E1 & H1)%list_elem_of_fmap
        (a2 & E2 & H2)%list_elem_of_fmap [= Hc ->]. f_equal.
      injection E1 as -> _. injection E2 as -> _.
      apply on_class_inj; [by apply doc_attribute_class..|done].
    + rewrite Pa. apply Hwf.
Qed.

Lemma reload_objects :
  insert_all next_id "Object" object_id set_object_id
             (resolve_object (id_map next_id class_id (class_section doc)))
             (keyed (fun _ => true) object_key)
             [] (object_section doc)
  = Ok (renumber_object f <$> object_section doc).
Proof.
  apply (insert_all_renumbered _ _ _ _ _ _ _
           (fun n => MkObject (object_id n) (on_class f (object_class_id n))
                       (object_name n) (guid n) (description n))).
  - apply reload_object_NoDup.
  - apply Forall_forall. intros n Hn. unfold resolve_object.
    by rewrite (class_id_known _ (doc_object_class n Hn)).
  - done.
  - apply admitted_keyed_nil; [by apply Forall_forall|].
    apply (NoDup_key_renumbered _ (fun k => (on_class f k.1, k.2))).
    + done.
    + intros [c1 n1] [c2 n2] (a1 & E1 & H1)%list_elem_of_fmap
        (a2 & E2 & H2)%list_elem_of_fmap [= Hc ->]. f_equal.
      injection E1 as -> _. injection E2 as -> _.
      apply on_class_inj; [by apply doc_object_class..|done].
    + rewrite Po. apply Hwf.
Qed.

Lemma reload_categories :
  insert_all next_id "Category" category_id set_category_id
             (resolve_category (id_map next_id class_id (class_section doc)))
             unconstrained [] (category_section doc)
  = Ok (renumber_category f <$> category_section doc).
Proof.
  apply (insert_all_renumbered _ _ _ _ _ _ _
           (fun n => MkCategory (category_id n)
                       (on_class f (category_class_id n)) (category_name n))).
  - apply reload_category_NoDup.
  - apply Forall_forall. intros n Hn. unfold resolve_category.
    by rewrite (class_id_known _ (doc_category_class n Hn)).
  - done.
  - apply admitted_unconstrained.
Qed.

Lemma reload_memberships :
  insert_all next_id "Membership" membership_id set_membership_id
             (resolve_membership (id_map next_id object_id (object_section doc)))
             (keyed not_self membership_key)
             [] (membership_section doc)
  = Ok (renumber_membership f <$> membership_section doc).
Proof.
  apply (insert_all_renumbered _ _ _ _ _ _ _
           (fun n => MkMembership (membership_id n)
                       (on_object f (parent_object_id n))
                       (on_object f (child_object_id n)) (collection_id n))).
  - apply reload_membership_NoDup.
  - apply Forall_forall. intros n Hn. unfold resolve_membership.
    destruct (doc_membership_refs n Hn) as [Hp Hc].
    by rewrite (object_id_known _ Hp), (object_id_known _ Hc).
  - done.
  - apply admitted_keyed_nil.
    + apply Forall_fmap, Forall_forall. intros m Hm. cbn.
      destruct (doc_membership_refs m Hm) as [Hp Hc].
      assert (Hs : not_self m = true).
      { rewrite Pm in Hm.
        exact (proj1 (Forall_forall _ _) (wf_not_self s Hwf) m Hm). }
      unfold not_self in *. cbn. apply bool_decide_eq_true.
      apply bool_decide_eq_true in Hs. intros E. apply Hs.
      by apply on_object_inj.
    + apply (NoDup_key_renumbered _
               (fun k => (on_object f k.1.1, on_object f k.1.2, k.2))).
      * done.
      * intros [[p1 c1] k1] [[p2 c2] k2] (m1 & E1 & H1)%list_elem_of_fmap
          (m2 & E2 & H2)%list_elem_of_fmap [= Hp Hc ->].
        injection E1 as -> -> _. injection E2 as -> -> _.
        destruct (doc_membership_refs m1 H1), (doc_membership_refs m2 H2).
        f_equal. f_equal; by apply on_object_inj.
      * rewrite Pm. apply Hwf.
Qed.

Lemma reload_attribute_values :
  insert_all next_id "AttributeValue" value_object_id (fun _ v => v)
             (resolve_attribute_value
                (id_map next_id object_id (object_section doc))
                (id_map next_id attribute_id (attribute_def_section doc)))
             (keyed (class_matches
                       (renumber_object f <$> object_section doc)
                       (renumber_attribute_def f <$> attribute_def_section doc))
                    attribute_value_key)
             [] (attribute_value_section doc)
  = Ok (renumber_attribute_value f <$> attribute_value_section doc).
Proof.
  apply insert_all_plain.
  - apply Forall_forall. intros n Hn. unfold resolve_attribute_value.
    destruct (doc_value_refs n Hn) as [Ho Ha].
    by rewrite (object_id_known _ Ho), (attribute_id_known _ Ha).
  - apply admitted_keyed_nil.
    + apply Forall_fmap, Forall_forall. intros v Hv. cbn.
      assert (Hs : class_matches (objects s) (attribute_defs s) v = true).
      { rewrite Pv in Hv.
        exact (proj1 (Forall_forall _ _) (wf_value_class s Hwf) v Hv). }
      apply class_matches_true in Hs as (o & a & Ho & Ha & Eo & Ea & Ec).
      apply class_matches_true.
      exists (renumber_object f o), (renumber_attribute_def f a).
      split; [apply list_elem_of_fmap; exists o; by rewrite Po|].
      split; [apply list_elem_of_fmap; exists a; by rewrite Pa|].
      cbn. by rewrite Eo, Ea, Ec.
    + apply (NoDup_key_renumbered _
               (fun k => (on_object f k.1, on_attribute f k.2))).
      * done.
      * intros [o1 a1] [o2 a2] (v1 & E1 & H1)%list_elem_of_fmap
          (v2 & E2 & H2)%list_elem_of_fmap [= Ho Ha].
        injection E1 as -> ->. injection E2 as -> ->.
        destruct (doc_value_refs v1 H1), (doc_value_refs v2 H2).
        f_equal; [by apply on_object_inj|by apply on_attribute_inj].
      * rewrite Pv. apply Hwf.
Qed.

(** The whole document *)

Lemma reload :
  exists s2, load next_id doc = Ok s2 /\ renumbers f s /\ renumbered f s s2.
Proof.
  exists (MkStore (renumber_class f <$> class_section doc)
                  (renumber_attribute_def f <$> attribute_def_section doc)
                  (renumber_object f <$> object_section doc)
                  (renumber_attribute_value f <$> attribute_value_section doc)
                  (renumber_category f <$> category_section doc)
                  (renumber_membership f <$> membership_section doc)).
  split; [|split].
  - apply load_Ok. cbn [classes attribute_defs objects attribute_values
                        categories memberships].
    split; [apply reload_classes|]. split; [apply reload_attribute_defs|].
    split; [apply reload_objects|]. split; [apply reload_attribute_values|].
    split; [apply reload_categories|apply reload_memberships].
  - apply reload_renumbers.
  - unfold renumbered. cbn [classes attribute_defs objects attribute_values
                            categories memberships].
    by rewrite Pc, Pa, Po, Pv, Pk, Pm.
Qed.

End reload.

(** ** [save] *)

Lemma save_Permutation (s : Store) :
  well_formed s ->
  class_section (save s) ≡ₚ classes s
  /\ attribute_def_section (save s) ≡ₚ attribute_defs s
  /\ object_section (save s) ≡ₚ objects s
  /\ attribute_value_section (save s) ≡ₚ attribute_values s
  /\ category_section (save s) ≡ₚ categories s
  /\ membership_section (save s) ≡ₚ memberships s.
Proof.
  intros Hwf. unfold save.
  cbn [class_section attribute_def_section object_section
       attribute_value_section category_section membership_section].
  rewrite !sort_on_Permutation.
  rewrite (filter_all _ _ (wf_attribute_class s Hwf)).
  rewrite (filter_all _ _ (wf_object_class s Hwf)).
  rewrite (filter_all _ _ (wf_value_refs s Hwf)).
  rewrite (filter_all _ _ (wf_category_class s Hwf)).
  rewrite (filter_all _ _ (wf_membership_refs s Hwf)).
  done.
Qed.

(** ** The round trip *)

Example load_example : load count_from_1 example_document = Ok example_store.
Proof. vm_compute. reflexivity. Qed.

Example reload_example :
  load count_from_1 (save example_store) = Ok example_store_again.
Proof. vm_compute. reflexivity. Qed.

Example load_dangling :
  raised_class (load count_from_1 dangling_document) = Some "LoadError".
Proof. vm_compute. reflexivity. Qed.

Lemma count_from_1_inj : Inj (=) (=) count_from_1.
Proof. intros x y. unfold count_from_1. lia. Qed.

(** C8: a store that [load] produced from a document, saved and loaded
    again, gives a store with the same rows up to the numbering of rows:
    there is a renumbering of the identifiers of each table, one-to-one on
    the identifiers in use, under which the Class, AttributeDef, Object,
    AttributeValue, Category and Membership rows of the first store are,
    each as often, the rows of the second.  This holds however the store
    assigns identifiers, as long as no two rows of a table get the same. *)
Theorem load_save_load (next_id : nat -> Z) (doc : Document) (s1 : Store) :
  Inj (=) (=) next_id ->
  load next_id doc = Ok s1 ->
  exists s2, load next_id (save s1) = Ok s2 /\ same_rows s1 s2.
Proof.
  intros Hinj Hload.
  pose proof (load_well_formed next_id Hinj doc s1 Hload) as Hwf.
  destruct (save_Permutation s1 Hwf) as (Pc & Pa & Po & Pv & Pk & Pm).
  destruct (reload next_id Hinj s1 (save s1) Hwf Pc Pa Po Pv Pk Pm)
    as (s2 & Hs2 & Hren & Hrows).
  exists s2. split; [done|].
  by exists (renumbering_of next_id (save s1)).
Qed.

Lemma load_save_load_witness :
  exists s2,
    load count_from_1 (save example_store) = Ok s2
    /\ same_rows example_store s2.
Proof.
  apply (load_save_load count_from_1 example_document example_store).
  - apply count_from_1_inj.
  - vm_compute. reflexivity.
Defined.

End MapperFacts.
